(** * AudioFlex: the overlap-add time-stretching engine

    A shallow embedding of [audioflex/overlap_add.py] (class [OverlapAdd])
    and the properties of its cursor arithmetic and of the recursive
    [pull] protocol.

    Modelling conventions.
    - Python integers are [Z].  [block_size // 2] is floor division,
      which is [Z.div] for the positive divisor 2.
    - The rate [inv_time_factor] is a Python number (the [int] 1 at
      construction, afterwards whatever the setters store), and so are
      the arguments of the two setters.  They are modelled as exact
      rationals [Q]; binary floating point rounding and the non-finite
      floats are outside the model.  The statements below therefore say
      nothing about the integer a block boundary rounds to, beyond its
      sign and the case of rate 1, where the exact and the binary
      product agree.
    - Sample values are kept abstract: a type [T] with the two
      operations the engine uses on them, [mul] and [add].  No algebraic
      law is assumed of them unless a statement says so.
    - A 2-D numpy array is the list of its rows (one row per channel).
      The empty list stands for the 1-D empty array that
      [np.array([])] builds when [channels <= 0].
    - The object is mutated in place and Python exceptions leave the
      mutations done so far: methods are computations in a state and
      exception monad whose failure carries the state at the raise.
    - The recursion of [pull] is not structural and may not end, so it
      takes a recursion budget and answers [OutOfFuel] when it is used
      up. *)

From Stdlib Require Import ZArith QArith List Lia Bool.
Import ListNotations.

Open Scope Z_scope.

(** ** Python numbers *)

(** [round(x)] of Python 3 on an exact value: nearest integer, ties to
    the even neighbour. *)
Definition py_round (x : Q) : Z :=
  let n := Qnum x in
  let d := Z.pos (Qden x) in
  let f := (2 * n + d) / (2 * d) in
  if ((2 * n + d) mod (2 * d) =? 0) && Z.odd f then f - 1 else f.

(** ** Python sequences *)

(** One bound of [seq[start:stop]] clipped the way [slice.indices] does
    it for a sequence of length [len]: a negative bound counts from the
    end, and everything is clamped to [0, len]. *)
Definition slice_bound (len i : Z) : Z :=
  if i <? 0 then Z.max 0 (i + len) else Z.min i len.

(** [l[start:stop]] *)
Definition py_slice {A} (l : list A) (start stop : Z) : list A :=
  let len := Z.of_nat (length l) in
  let a := slice_bound len start in
  let b := slice_bound len stop in
  firstn (Z.to_nat (b - a)) (skipn (Z.to_nat a) l).

Fixpoint map2 {A B C} (f : A -> B -> C) (xs : list A) (ys : list B) : list C :=
  match xs, ys with
  | x :: xs', y :: ys' => f x y :: map2 f xs' ys'
  | _, _ => []
  end.

(** numpy broadcasting along one axis: equal lengths pair up, a length-1
    operand is stretched, anything else is a shape error. *)
Definition broadcast {A B C} (f : A -> B -> C) (xs : list A) (ys : list B)
  : option (list C) :=
  if Nat.eqb (length xs) (length ys) then Some (map2 f xs ys)
  else match xs, ys with
       | [x], _ => Some (map (f x) ys)
       | _, [y] => Some (map (fun x => f x y) xs)
       | _, _ => None
       end.

Fixpoint sequence {A} (l : list (option A)) : option (list A) :=
  match l with
  | [] => Some []
  | Some x :: l' => match sequence l' with Some xs => Some (x :: xs) | None => None end
  | None :: _ => None
  end.

(** positions [start, start + 1, ...], [n] of them *)
Definition zrange (start : Z) (n : nat) : list Z :=
  map (fun j => start + Z.of_nat j) (seq 0 n).

Inductive exn : Type :=
| ZeroDivisionError
| IndexError
| ValueError.

Section Engine.

Variable T : Type.
Variable mul : T -> T -> T.
Variable add : T -> T -> T.

(** [np.hanning(M)] followed by the cast to [float32]; only its length
    matters to the cursor logic. *)
Variable hanning : Z -> list T.

Definition ndarray : Type := list (list T).

(** [a.shape[1]] of a 2-D array with at least one row *)
Definition shape1 (a : ndarray) : Z :=
  match a with
  | [] => 0
  | r :: _ => Z.of_nat (length r)
  end.

Definition same_shape (a b : ndarray) : bool :=
  Nat.eqb (length a) (length b)
  && forallb (fun p => Nat.eqb (length (fst p)) (length (snd p))) (combine a b).

(** Modelled from the spec: SampleSource, the [SliceableArray] protocol
    of [audioflex.protocols], which is not part of the sources at hand.
    The spec has it answer a range read [start, start+len) with a
    [channels x len] matrix of the samples at those absolute positions,
    over an extent that is never exhausted.  It has at least one channel,
    and an empty or reversed range has no columns. *)
Record SliceableArray : Type := {
  buf_channels : positive;
  buf_sample : nat -> Z -> T
}.

(** [buf[start:stop]] *)
Definition getitem (buf : SliceableArray) (start stop : Z) : ndarray :=
  map (fun c => map (buf_sample buf c) (zrange start (Z.to_nat (stop - start))))
      (seq 0 (Pos.to_nat (buf_channels buf))).

(** ** The object *)

Record OverlapAdd : Type := {
  block_size : Z;
  channels : Z;
  input_buffer : SliceableArray;
  window : ndarray;
  inv_time_factor : Q;
  _semi_block_samples : Z;
  _semi_block_index : Z;
  _input_block_index : Z;
  _sum_buffer_index : Z;
  _output_index : Z
}.

(** ** Computations on the object *)

Inductive outcome (A : Type) : Type :=
| Ok (self : OverlapAdd) (a : A)
| Raise (e : exn) (self : OverlapAdd)
| OutOfFuel.

Arguments Ok {A} self a.
Arguments Raise {A} e self.
Arguments OutOfFuel {A}.

Definition M (A : Type) : Type := OverlapAdd -> outcome A.

Definition ret {A} (a : A) : M A := fun self => Ok self a.

Definition bind {A B} (m : M A) (k : A -> M B) : M B :=
  fun self =>
    match m self with
    | Ok self' a => k a self'
    | Raise e self' => Raise e self'
    | OutOfFuel => OutOfFuel
    end.

Definition raise {A} (e : exn) : M A := fun self => Raise e self.

Definition gets {A} (f : OverlapAdd -> A) : M A := fun self => Ok self (f self).

Definition modify (f : OverlapAdd -> OverlapAdd) : M unit :=
  fun self => Ok (f self) tt.

Definition lift {A} (e : exn) (o : option A) : M A :=
  match o with
  | Some a => ret a
  | None => raise e
  end.

Notation "x <- m ;; k" := (bind m (fun x => k))
  (at level 61, m at next level, right associativity).
Notation "m ;;; k" := (bind m (fun _ => k))
  (at level 61, right associativity).

(** field assignments *)
Definition set_inv_time_factor (v : Q) (o : OverlapAdd) : OverlapAdd :=
  {| block_size := block_size o; channels := channels o;
     input_buffer := input_buffer o; window := window o;
     inv_time_factor := v;
     _semi_block_samples := _semi_block_samples o;
     _semi_block_index := _semi_block_index o;
     _input_block_index := _input_block_index o;
     _sum_buffer_index := _sum_buffer_index o;
     _output_index := _output_index o |}.

Definition set_semi_block_index (v : Z) (o : OverlapAdd) : OverlapAdd :=
  {| block_size := block_size o; channels := channels o;
     input_buffer := input_buffer o; window := window o;
     inv_time_factor := inv_time_factor o;
     _semi_block_samples := _semi_block_samples o;
     _semi_block_index := v;
     _input_block_index := _input_block_index o;
     _sum_buffer_index := _sum_buffer_index o;
     _output_index := _output_index o |}.

Definition set_input_block_index (v : Z) (o : OverlapAdd) : OverlapAdd :=
  {| block_size := block_size o; channels := channels o;
     input_buffer := input_buffer o; window := window o;
     inv_time_factor := inv_time_factor o;
     _semi_block_samples := _semi_block_samples o;
     _semi_block_index := _semi_block_index o;
     _input_block_index := v;
     _sum_buffer_index := _sum_buffer_index o;
     _output_index := _output_index o |}.

Definition set_sum_buffer_index (v : Z) (o : OverlapAdd) : OverlapAdd :=
  {| block_size := block_size o; channels := channels o;
     input_buffer := input_buffer o; window := window o;
     inv_time_factor := inv_time_factor o;
     _semi_block_samples := _semi_block_samples o;
     _semi_block_index := _semi_block_index o;
     _input_block_index := _input_block_index o;
     _sum_buffer_index := v;
     _output_index := _output_index o |}.

Definition set_output_index (v : Z) (o : OverlapAdd) : OverlapAdd :=
  {| block_size := block_size o; channels := channels o;
     input_buffer := input_buffer o; window := window o;
     inv_time_factor := inv_time_factor o;
     _semi_block_samples := _semi_block_samples o;
     _semi_block_index := _semi_block_index o;
     _input_block_index := _input_block_index o;
     _sum_buffer_index := _sum_buffer_index o;
     _output_index := v |}.

(** ** numpy operations *)

(** [a * b] with broadcasting over both axes *)
Definition np_multiply (a b : ndarray) : M ndarray :=
  lift ValueError
    match broadcast pair a b with
    | None => None
    | Some rows => sequence (map (fun p => broadcast mul (fst p) (snd p)) rows)
    end.

(** [np.sum((a, b), axis=0)]: the two arrays are stacked first, which
    needs equal shapes. *)
Definition np_sum2 (a b : ndarray) : M ndarray :=
  if same_shape a b then ret (map2 (map2 add) a b) else raise ValueError.

(** [np.concatenate((a, b), axis=1)] *)
Definition np_concatenate1 (a b : ndarray) : M ndarray :=
  if Nat.eqb (length a) (length b) then ret (map2 (@app T) a b)
  else raise ValueError.

(** ** The methods of [OverlapAdd] *)

(** [__init__]: nothing in it inspects its arguments. *)
Definition __init__ (input_buffer : SliceableArray) (block_size channels : Z)
  : outcome unit :=
  let window := hanning block_size in
  let window := repeat window (Z.to_nat channels) in
  Ok {| block_size := block_size;
        channels := channels;
        input_buffer := input_buffer;
        window := window;
        inv_time_factor := 1;
        _semi_block_samples := block_size / 2;
        _semi_block_index := 0;
        _input_block_index := 0;
        _sum_buffer_index := 0;
        _output_index := 0 |} tt.

Definition set_rate (rate : Q) : M unit :=
  modify (set_inv_time_factor rate).

(** [1 / time_factor] raises before the assignment when the divisor is
    zero. *)
Definition set_time_factor (time_factor : Q) : M unit :=
  if Qnum time_factor =? 0 then raise ZeroDivisionError
  else modify (set_inv_time_factor (1 / time_factor)).

Definition _increment_indices (samples : Z) : M unit :=
  modify (fun o => set_input_block_index (_input_block_index o + samples) o) ;;;
  modify (fun o => set_sum_buffer_index (_sum_buffer_index o + samples) o) ;;;
  modify (fun o => set_output_index (_output_index o + samples) o) ;;;
  modify (fun o => set_semi_block_index (_semi_block_index o + samples) o).

(** [self.window[:, window_start:window_start + length]]; indexing the
    1-D empty window with two indices is an [IndexError]. *)
Definition _get_window_slice (length window_start : Z) : M ndarray :=
  w <- gets window ;;
  match w with
  | [] => raise IndexError
  | _ => ret (map (fun row => py_slice row window_start (window_start + length)) w)
  end.

(** the hook: identity in the base class *)
Definition _process_current_block (audio_chunk : ndarray) : M ndarray :=
  ret audio_chunk.

Definition _take_from_semi_block (samples : Z) : M ndarray :=
  sbi <- gets _semi_block_index ;;
  window_slice <- _get_window_slice samples sbi ;;
  buf <- gets input_buffer ;;
  ibi <- gets _input_block_index ;;
  cur <- np_multiply (getitem buf ibi (ibi + samples)) window_slice ;;
  sbs <- gets _semi_block_samples ;;
  sbi <- gets _semi_block_index ;;
  window_slice <- _get_window_slice samples (sbs + sbi) ;;
  buf <- gets input_buffer ;;
  sumi <- gets _sum_buffer_index ;;
  add_ <- np_multiply (getitem buf sumi (sumi + samples)) window_slice ;;
  _increment_indices samples ;;;
  _process_current_block cur ;;;
  np_sum2 cur add_.

Definition _update_block_indices : M unit :=
  modify (fun o => set_sum_buffer_index (_input_block_index o) o) ;;;
  modify (fun o => set_input_block_index
                     (py_round (inject_Z (_output_index o) * inv_time_factor o)) o) ;;;
  modify (set_semi_block_index 0).

Fixpoint pull (fuel : nat) (samples : Z) : M ndarray :=
  match fuel with
  | O => fun _ => OutOfFuel
  | S fuel =>
      sbi <- gets _semi_block_index ;;
      sbs <- gets _semi_block_samples ;;
      if sbi + samples <=? sbs then _take_from_semi_block samples
      else if sbi =? sbs then
        _update_block_indices ;;;
        pull fuel samples
      else
        block_end <- pull fuel (sbs - sbi) ;;
        _update_block_indices ;;;
        new_block <- pull fuel (samples - shape1 block_end) ;;
        np_concatenate1 block_end new_block
  end.

(** ** Closed forms of the two state updates and of an extracted chunk *)

(** the object after [_increment_indices k] *)
Definition advanced (k : Z) (o : OverlapAdd) : OverlapAdd :=
  {| block_size := block_size o; channels := channels o;
     input_buffer := input_buffer o; window := window o;
     inv_time_factor := inv_time_factor o;
     _semi_block_samples := _semi_block_samples o;
     _semi_block_index := _semi_block_index o + k;
     _input_block_index := _input_block_index o + k;
     _sum_buffer_index := _sum_buffer_index o + k;
     _output_index := _output_index o + k |}.

(** the object after [_update_block_indices] *)
Definition next_block (o : OverlapAdd) : OverlapAdd :=
  {| block_size := block_size o; channels := channels o;
     input_buffer := input_buffer o; window := window o;
     inv_time_factor := inv_time_factor o;
     _semi_block_samples := _semi_block_samples o;
     _semi_block_index := 0;
     _input_block_index := py_round (inject_Z (_output_index o) * inv_time_factor o);
     _sum_buffer_index := _input_block_index o;
     _output_index := _output_index o |}.

(** one channel of the windowed sum over [k] positions: channel [c] of
    the source against the window row [r] *)
Definition semi_block_row (o : OverlapAdd) (k : nat) (c : nat) (r : list T) : list T :=
  map2 add
    (map2 mul (map (buf_sample (input_buffer o) c) (zrange (_input_block_index o) k))
              (firstn k (skipn (Z.to_nat (_semi_block_index o)) r)))
    (map2 mul (map (buf_sample (input_buffer o) c) (zrange (_sum_buffer_index o) k))
              (firstn k (skipn (Z.to_nat (_semi_block_samples o + _semi_block_index o)) r))).

Definition semi_block (o : OverlapAdd) (k : nat) : ndarray :=
  map (fun p => semi_block_row o k (fst p) (snd p))
      (combine (seq 0 (Pos.to_nat (buf_channels (input_buffer o)))) (window o)).

(** ** Well-formed objects *)

(** What [__init__] establishes for positive [channels] and what no
    method changes: the window has one row of [block_size] weights per
    channel, the source has as many channels, and the half block is
    [block_size // 2]. *)
Record shaped (o : OverlapAdd) : Prop := {
  shaped_channels : 0 < channels o;
  shaped_rows : length (window o) = Z.to_nat (channels o);
  shaped_cols : Forall (fun r => length r = Z.to_nat (block_size o)) (window o);
  shaped_buffer : Z.pos (buf_channels (input_buffer o)) = channels o;
  shaped_half : _semi_block_samples o = block_size o / 2;
  shaped_size : 0 <= block_size o
}.

Definition in_semi_block (o : OverlapAdd) : Prop :=
  0 <= _semi_block_index o <= _semi_block_samples o.

(** every row has [n] entries *)
Definition rows_of_length (n : nat) (a : ndarray) : Prop :=
  Forall (fun r => length r = n) a.

(** a [rows x cols] array *)
Definition has_shape (a : ndarray) (rows : Z) (cols : Z) : Prop :=
  length a = Z.to_nat rows /\ Forall (fun r => length r = Z.to_nat cols) a.

(** [a[c, j]] *)
Definition item (a : ndarray) (c j : Z) (d : T) : T :=
  nth (Z.to_nat j) (nth (Z.to_nat c) a []) d.

(** the same object over another source *)
Definition set_input_buffer (buf : SliceableArray) (o : OverlapAdd) : OverlapAdd :=
  {| block_size := block_size o; channels := channels o;
     input_buffer := buf; window := window o;
     inv_time_factor := inv_time_factor o;
     _semi_block_samples := _semi_block_samples o;
     _semi_block_index := _semi_block_index o;
     _input_block_index := _input_block_index o;
     _sum_buffer_index := _sum_buffer_index o;
     _output_index := _output_index o |}.

(** the cursor facts that every public call maintains *)
Record cursors_ok (o : OverlapAdd) : Prop := {
  cursors_semi_block : in_semi_block o;
  cursors_input : 0 <= _input_block_index o;
  cursors_sum : 0 <= _sum_buffer_index o;
  cursors_output : 0 <= _output_index o;
  cursors_rate : (0 <= inv_time_factor o)%Q
}.

(** ** Clients *)

(** The three public operations a client can invoke between
    construction and the end of the stream. *)
Inductive call : Type :=
| Pull (n : Z)
| SetRate (rate : Q)
| SetTimeFactor (time_factor : Q).

Definition perform (fuel : nat) (c : call) : M unit :=
  match c with
  | Pull n => pull fuel n ;;; ret tt
  | SetRate rate => set_rate rate
  | SetTimeFactor time_factor => set_time_factor time_factor
  end.

Fixpoint run (fuel : nat) (cs : list call) : M unit :=
  match cs with
  | [] => ret tt
  | c :: cs' => perform fuel c ;;; run fuel cs'
  end.

(** requests are non-negative and rate arguments positive *)
Definition admissible (c : call) : Prop :=
  match c with
  | Pull n => 0 <= n
  | SetRate rate => (0 < rate)%Q
  | SetTimeFactor time_factor => (0 < time_factor)%Q
  end.

(** a recursion budget that covers every request of a session *)
Definition affordable (fuel : nat) (c : call) : Prop :=
  match c with
  | Pull n => 2 * n + 1 < Z.of_nat fuel
  | _ => True
  end.

(** [pull samples] returns: from some recursion budget on, every run
    ends with the same object and the same array *)
Definition returns (samples : Z) (self self' : OverlapAdd) (out : ndarray) : Prop :=
  exists fuel, forall fuel', (fuel <= fuel')%nat ->
    pull fuel' samples self = Ok self' out.

(** what a returning [pull samples] leaves behind *)
Record pulled (samples : Z) (self self' : OverlapAdd) (out : ndarray) : Prop := {
  pulled_shaped : shaped self';
  pulled_in_semi_block : in_semi_block self';
  pulled_shape : has_shape out (channels self) samples;
  pulled_channels : channels self' = channels self;
  pulled_half : _semi_block_samples self' = _semi_block_samples self;
  pulled_output : _output_index self' = _output_index self + samples
}.

(** ** Vocabulary for further properties *)

(** everything but the four cursors agrees *)
Definition same_config (o o' : OverlapAdd) : Prop :=
  block_size o' = block_size o
  /\ channels o' = channels o
  /\ input_buffer o' = input_buffer o
  /\ window o' = window o
  /\ inv_time_factor o' = inv_time_factor o
  /\ _semi_block_samples o' = _semi_block_samples o.

(** [P] holds of the object a computation leaves, whether it returned
    or raised *)
Definition lands {A} (P : OverlapAdd -> Prop) (r : outcome A) : Prop :=
  match r with
  | Ok self' _ => P self'
  | Raise _ self' => P self'
  | OutOfFuel => True
  end.

Definition keeps_config {A} (m : M A) : Prop :=
  forall self, lands (same_config self) (m self).

(** both read heads stand at the output position *)
Definition in_step (o : OverlapAdd) : Prop :=
  _input_block_index o = _output_index o
  /\ _sum_buffer_index o = _output_index o.

(** where a request of [n] leaves the semi-block cursor *)
Definition final_semi_block_index (o : OverlapAdd) (n : Z) : Z :=
  if _semi_block_index o + n <=? _semi_block_samples o
  then _semi_block_index o + n
  else (_semi_block_index o + n - 1) mod _semi_block_samples o + 1.

(** nesting of [pull] frames a request of [n] needs *)
Definition recursion_depth (o : OverlapAdd) (n : Z) : Z :=
  if _semi_block_index o + n <=? _semi_block_samples o
  then 1
  else (_semi_block_index o + n - 1) / _semi_block_samples o + 1.

(** ** List and slice facts *)

Lemma map2_length {A B C} (f : A -> B -> C) xs ys :
  length xs = length ys -> length (map2 f xs ys) = length xs.
Proof.
  revert ys; induction xs as [|x xs IH]; intros [|y ys]; simpl; intros H;
    try discriminate; auto.
Qed.

Lemma map2_app {A B C} (f : A -> B -> C) xs1 xs2 ys1 ys2 :
  length xs1 = length ys1 ->
  map2 f (xs1 ++ xs2) (ys1 ++ ys2) = map2 f xs1 ys1 ++ map2 f xs2 ys2.
Proof.
  revert ys1; induction xs1 as [|x xs1 IH]; intros [|y ys1]; simpl; intros H;
    try discriminate; auto.
  f_equal. apply IH. congruence.
Qed.

Lemma map2_map_map {A B C D E} (f : C -> D -> E) (g : A -> C) (h : B -> D) xs ys :
  map2 f (map g xs) (map h ys)
  = map (fun p => f (g (fst p)) (h (snd p))) (combine xs ys).
Proof.
  revert ys; induction xs as [|x xs IH]; intros [|y ys]; simpl; auto.
  f_equal. apply IH.
Qed.

Lemma map2_map_same {A C D E} (f : C -> D -> E) (g : A -> C) (h : A -> D) xs :
  map2 f (map g xs) (map h xs) = map (fun x => f (g x) (h x)) xs.
Proof. induction xs as [|x xs IH]; simpl; auto. f_equal. apply IH. Qed.

Lemma map2_app_assoc {A} (a b c : list (list A)) :
  map2 (@app A) (map2 (@app A) a b) c = map2 (@app A) a (map2 (@app A) b c).
Proof.
  revert b c; induction a as [|x a IH]; intros [|y b] [|z c]; simpl; auto.
  f_equal. - symmetry. apply app_assoc. - apply IH.
Qed.

Lemma zrange_length start n : length (zrange start n) = n.
Proof. unfold zrange. now rewrite length_map, length_seq. Qed.

Lemma zrange_app start n m :
  zrange start (n + m) = zrange start n ++ zrange (start + Z.of_nat n) m.
Proof.
  unfold zrange. rewrite seq_app, map_app. f_equal.
  replace (0 + n)%nat with (n + 0)%nat by lia. generalize 0%nat as a.
  induction m as [|m IH]; intros a; simpl; [reflexivity|].
  f_equal; [lia|].
  rewrite <- IH. f_equal. f_equal. lia.
Qed.

Lemma firstn_skipn_add {A} (l : list A) a n m :
  firstn (n + m) (skipn a l) = firstn n (skipn a l) ++ firstn m (skipn (a + n) l).
Proof.
  rewrite <- (firstn_skipn n (skipn a l)) at 1.
  rewrite firstn_app, length_firstn, skipn_skipn.
  rewrite firstn_firstn.
  replace (Nat.min (n + m) n) with n by lia.
  f_equal. rewrite (Nat.add_comm n a).
  destruct (Nat.le_gt_cases n (length (skipn a l))) as [Hle|Hgt].
  - f_equal. lia.
  - rewrite !firstn_all2; auto; rewrite ?length_skipn in *; lia.
Qed.

Lemma firstn_skipn_length {A} (l : list A) a n :
  (a + n <= length l)%nat -> length (firstn n (skipn a l)) = n.
Proof. intros H. rewrite length_firstn, length_skipn. lia. Qed.

(** a slice that stays inside the sequence *)
Lemma py_slice_inside {A} (l : list A) start k :
  0 <= start -> 0 <= k -> start + k <= Z.of_nat (length l) ->
  py_slice l start (start + k) = firstn (Z.to_nat k) (skipn (Z.to_nat start) l).
Proof.
  intros Hs Hk Hl. unfold py_slice, slice_bound.
  destruct (Z.ltb_spec start 0); [lia|].
  destruct (Z.ltb_spec (start + k) 0); [lia|].
  rewrite !Z.min_l by lia. f_equal. f_equal. lia.
Qed.

(** a slice whose stop is not beyond its non-negative start is empty *)
Lemma py_slice_backwards {A} (l : list A) start stop :
  0 <= stop <= start -> py_slice l start stop = [].
Proof.
  intros H. unfold py_slice, slice_bound.
  destruct (Z.ltb_spec start 0); [lia|].
  destruct (Z.ltb_spec stop 0); [lia|].
  replace (Z.to_nat _) with O by lia. reflexivity.
Qed.

(** ** numpy operations on arrays of matching shape *)

Lemma sequence_broadcast_rows (f : T -> T -> T) n (a b : ndarray) :
  length a = length b -> rows_of_length n a -> rows_of_length n b ->
  sequence (map (fun p => broadcast f (fst p) (snd p)) (map2 pair a b))
  = Some (map2 (map2 f) a b).
Proof.
  revert b; induction a as [|x a IH]; intros [|y b] Hl Ha Hb; simpl in *;
    try discriminate; auto.
  inversion Ha; inversion Hb; subst.
  unfold broadcast at 1. replace (length y) with (length x) by congruence.
  rewrite Nat.eqb_refl. rewrite IH; auto.
Qed.

Lemma np_multiply_aligned n (a b : ndarray) self :
  length a = length b -> rows_of_length n a -> rows_of_length n b ->
  np_multiply a b self = Ok self (map2 (map2 mul) a b).
Proof.
  intros Hl Ha Hb. unfold np_multiply, broadcast.
  rewrite Hl, Nat.eqb_refl.
  rewrite (sequence_broadcast_rows mul n); auto.
Qed.

Lemma same_shape_aligned n (a b : ndarray) :
  length a = length b -> rows_of_length n a -> rows_of_length n b ->
  same_shape a b = true.
Proof.
  intros Hl Ha Hb. unfold same_shape. rewrite Hl, Nat.eqb_refl. simpl.
  apply forallb_forall. intros [x y] Hin. simpl.
  apply Nat.eqb_eq.
  unfold rows_of_length in *. rewrite Forall_forall in Ha, Hb.
  rewrite (Ha x), (Hb y); eauto using in_combine_l, in_combine_r.
Qed.

Lemma np_sum2_aligned n (a b : ndarray) self :
  length a = length b -> rows_of_length n a -> rows_of_length n b ->
  np_sum2 a b self = Ok self (map2 (map2 add) a b).
Proof.
  intros Hl Ha Hb. unfold np_sum2.
  now rewrite (same_shape_aligned n).
Qed.

Lemma rows_of_length_map {A} n (g : A -> list T) (l : list A) :
  (forall x, In x l -> length (g x) = n) -> rows_of_length n (map g l).
Proof.
  intros H. unfold rows_of_length. rewrite Forall_forall.
  intros r Hr. apply in_map_iff in Hr as [x [<- Hx]]. auto.
Qed.

(** ** The state updates *)

Lemma increment_indices_spec k self :
  _increment_indices k self = Ok (advanced k self) tt.
Proof. reflexivity. Qed.

Lemma update_block_indices_spec self :
  _update_block_indices self = Ok (next_block self) tt.
Proof. reflexivity. Qed.

Lemma advanced_0 self : advanced 0 self = self.
Proof. destruct self. unfold advanced. simpl. now rewrite !Z.add_0_r. Qed.

Lemma advanced_advanced j k self :
  advanced k (advanced j self) = advanced (j + k) self.
Proof. unfold advanced. simpl. now rewrite !Z.add_assoc. Qed.

Lemma shaped_advanced k self : shaped self -> shaped (advanced k self).
Proof. intros []. constructor; simpl; auto. Qed.

Lemma shaped_next_block self : shaped self -> shaped (next_block self).
Proof. intros []. constructor; simpl; auto. Qed.

Lemma shaped_double self :
  shaped self -> 2 * _semi_block_samples self <= block_size self.
Proof.
  intros []. rewrite shaped_half0. apply Z.mul_div_le. lia.
Qed.

(** ** Semi-block extraction *)

(** rewrite one numpy operation on operands whose shapes agree *)
Ltac aligned lem n :=
  match goal with
  | |- context [np_multiply ?a ?b ?o] =>
      rewrite (lem n a b o);
      [ cbv beta iota | now rewrite ?length_map | solve [auto with zarith] .. ]
  | |- context [np_sum2 ?a ?b ?o] =>
      rewrite (lem n a b o);
      [ cbv beta iota | now rewrite ?length_map | solve [auto with zarith] .. ]
  end.

Lemma window_slice_inside self k start :
  shaped self -> 0 <= start -> 0 <= k -> start + k <= block_size self ->
  map (fun row => py_slice row start (start + k)) (window self)
  = map (fun row => firstn (Z.to_nat k) (skipn (Z.to_nat start) row)) (window self).
Proof.
  intros Hs H0 Hk Hle. apply map_ext_in. intros row Hrow.
  apply py_slice_inside; auto.
  pose proof (shaped_cols _ Hs) as Hc. rewrite Forall_forall in Hc.
  rewrite (Hc _ Hrow). pose proof (shaped_size _ Hs). lia.
Qed.

Lemma shaped_window_cons self :
  shaped self -> exists r w, window self = r :: w.
Proof.
  intros Hs. destruct (window self) as [|r w] eqn:E; eauto.
  pose proof (shaped_rows _ Hs) as Hr. pose proof (shaped_channels _ Hs).
  rewrite E in Hr. simpl in Hr. lia.
Qed.

Lemma get_window_slice_spec self len start :
  shaped self ->
  _get_window_slice len start self
  = Ok self (map (fun row => py_slice row start (start + len)) (window self)).
Proof.
  intros Hs. destruct (shaped_window_cons _ Hs) as (r & w & Hw).
  unfold _get_window_slice, bind, gets. rewrite Hw. reflexivity.
Qed.

Lemma take_from_semi_block_spec self k :
  shaped self -> 0 <= _semi_block_index self -> 0 <= k ->
  _semi_block_index self + k <= _semi_block_samples self ->
  _take_from_semi_block k self
  = Ok (advanced k self) (semi_block self (Z.to_nat k)).
Proof.
  intros Hs Hi Hk Hle.
  pose proof (shaped_double _ Hs) as Hd.
  pose proof (shaped_cols _ Hs) as Hc. rewrite Forall_forall in Hc.
  pose proof (shaped_size _ Hs) as Hsz.
  assert (Hrows : length (seq 0 (Pos.to_nat (buf_channels (input_buffer self))))
                  = length (window self)).
  { rewrite length_seq, (shaped_rows _ Hs), <- (shaped_buffer _ Hs). lia. }
  assert (Hsrc : forall start,
             rows_of_length (Z.to_nat k)
               (map (fun c => map (buf_sample (input_buffer self) c)
                                  (zrange start (Z.to_nat k)))
                    (seq 0 (Pos.to_nat (buf_channels (input_buffer self)))))).
  { intros start. apply rows_of_length_map. intros.
    now rewrite length_map, zrange_length. }
  assert (Hwin : forall start, 0 <= start -> start + k <= block_size self ->
             rows_of_length (Z.to_nat k)
               (map (fun row => firstn (Z.to_nat k) (skipn (Z.to_nat start) row))
                    (window self))).
  { intros start H0 H1. apply rows_of_length_map. intros row Hrow.
    apply firstn_skipn_length. rewrite (Hc _ Hrow). lia. }
  unfold _take_from_semi_block, bind, gets.
  rewrite get_window_slice_spec by auto.
  rewrite window_slice_inside by (auto; lia).
  unfold getitem.
  replace (_input_block_index self + k - _input_block_index self) with k by lia.
  aligned np_multiply_aligned (Z.to_nat k).
  rewrite get_window_slice_spec by auto.
  rewrite window_slice_inside by (auto; lia).
  replace (_sum_buffer_index self + k - _sum_buffer_index self) with k by lia.
  aligned np_multiply_aligned (Z.to_nat k).
  rewrite increment_indices_spec. unfold _process_current_block, ret.
  rewrite !map2_map_map.
  assert (Hcur : forall start ws, 0 <= ws -> ws + k <= block_size self ->
    rows_of_length (Z.to_nat k)
      (map (fun p : nat * list T =>
              map2 mul (map (buf_sample (input_buffer self) (fst p))
                            (zrange start (Z.to_nat k)))
                       (firstn (Z.to_nat k) (skipn (Z.to_nat ws) (snd p))))
           (combine (seq 0 (Pos.to_nat (buf_channels (input_buffer self))))
                    (window self)))).
  { intros start ws H0 H1. apply rows_of_length_map. intros [c row] Hin. simpl.
    apply in_combine_r in Hin.
    rewrite map2_length; rewrite length_map, zrange_length; auto.
    symmetry. apply firstn_skipn_length. rewrite (Hc _ Hin). lia. }
  aligned np_sum2_aligned (Z.to_nat k).
  rewrite map2_map_same. reflexivity.
Qed.

Lemma semi_block_shape self k :
  shaped self -> 0 <= _semi_block_index self -> 0 <= k ->
  _semi_block_index self + k <= _semi_block_samples self ->
  has_shape (semi_block self (Z.to_nat k)) (channels self) k.
Proof.
  intros Hs Hi Hk Hle.
  pose proof (shaped_double _ Hs) as Hd.
  pose proof (shaped_cols _ Hs) as Hc. rewrite Forall_forall in Hc.
  split.
  - unfold semi_block. rewrite length_map, length_combine, length_seq.
    rewrite (shaped_rows _ Hs), <- (shaped_buffer _ Hs). lia.
  - apply rows_of_length_map. intros [c row] Hin. simpl.
    apply in_combine_r in Hin. unfold semi_block_row.
    assert (Hcols : forall ws, 0 <= ws -> ws + k <= block_size self ->
               length (firstn (Z.to_nat k) (skipn (Z.to_nat ws) row)) = Z.to_nat k).
    { intros ws H0 H1. apply firstn_skipn_length. rewrite (Hc _ Hin). lia. }
    rewrite map2_length; rewrite !map2_length;
      rewrite ?length_map, ?zrange_length, ?Hcols; auto; lia.
Qed.

Lemma has_shape_shape1 (a : ndarray) rows cols :
  0 < rows -> 0 <= cols -> has_shape a rows cols -> shape1 a = cols.
Proof.
  intros Hr Hc [Hl Hf]. destruct a as [|r a]; simpl in *; [lia|].
  inversion Hf; subst. lia.
Qed.

Lemma semi_block_0 self : shaped self ->
  semi_block self 0 = repeat [] (Z.to_nat (channels self)).
Proof.
  intros Hs. unfold semi_block, semi_block_row. simpl.
  rewrite <- (shaped_rows _ Hs).
  assert (Hl : length (combine (seq 0 (Pos.to_nat (buf_channels (input_buffer self))))
                               (window self)) = length (window self)).
  { rewrite length_combine, length_seq, (shaped_rows _ Hs), <- (shaped_buffer _ Hs). lia. }
  rewrite <- Hl. generalize (combine (seq 0 (Pos.to_nat (buf_channels (input_buffer self))))
                                     (window self)).
  induction l; simpl; congruence.
Qed.

Lemma map2_app_nil_l (a : ndarray) n :
  length a = n -> map2 (@app T) (repeat [] n) a = a.
Proof.
  revert n; induction a as [|r a IH]; intros [|n] H; simpl in *;
    try discriminate; auto.
  f_equal. apply IH. congruence.
Qed.

Lemma map2_app_nil_r (a : ndarray) n :
  length a = n -> map2 (@app T) a (repeat [] n) = a.
Proof.
  revert n; induction a as [|r a IH]; intros [|n] H; simpl in *;
    try discriminate; auto.
  rewrite app_nil_r. f_equal. apply IH. congruence.
Qed.

(** a semi-block read in two goes agrees with the read in one *)
Lemma semi_block_row_app self j k c row :
  (Z.to_nat (_semi_block_samples self + _semi_block_index self) + j <= length row)%nat ->
  0 <= _semi_block_index self -> 0 <= _semi_block_samples self ->
  semi_block_row self (j + k) c row
  = semi_block_row self j c row
    ++ semi_block_row (advanced (Z.of_nat j) self) k c row.
Proof.
  intros Hlen Hi Hh. unfold semi_block_row. simpl.
  rewrite !zrange_app, !map_app, !firstn_skipn_add.
  replace (Z.to_nat (_semi_block_index self + Z.of_nat j))
    with (Z.to_nat (_semi_block_index self) + j)%nat by lia.
  replace (Z.to_nat (_semi_block_samples self
                     + (_semi_block_index self + Z.of_nat j)))
    with (Z.to_nat (_semi_block_samples self + _semi_block_index self) + j)%nat
    by lia.
  assert (Hcols : forall ws, (ws + j <= length row)%nat ->
             length (firstn j (skipn ws row)) = j).
  { intros. now apply firstn_skipn_length. }
  rewrite !map2_app; auto;
    rewrite ?map2_length; rewrite ?length_map, ?zrange_length, ?Hcols; auto; lia.
Qed.

Lemma semi_block_app self j k :
  shaped self -> 0 <= _semi_block_index self -> 0 <= j -> 0 <= k ->
  _semi_block_index self + j <= _semi_block_samples self ->
  semi_block self (Z.to_nat (j + k))
  = map2 (@app T) (semi_block self (Z.to_nat j))
                  (semi_block (advanced j self) (Z.to_nat k)).
Proof.
  intros Hs Hi Hj Hk Hle.
  pose proof (shaped_double _ Hs) as Hd.
  pose proof (shaped_cols _ Hs) as Hc. rewrite Forall_forall in Hc.
  unfold semi_block. simpl. rewrite map2_map_same.
  apply map_ext_in. intros [c row] Hin. simpl.
  apply in_combine_r in Hin.
  rewrite Z2Nat.inj_add by lia.
  rewrite semi_block_row_app; try lia.
  - now rewrite Z2Nat.id by lia.
  - rewrite (Hc _ Hin). lia.
Qed.

(** ** The three cases of [pull] *)

Lemma pull_fits fuel n self :
  _semi_block_index self + n <= _semi_block_samples self ->
  pull (S fuel) n self = _take_from_semi_block n self.
Proof.
  intros H. simpl. unfold bind at 1 2, gets at 1 2.
  destruct (Z.leb_spec (_semi_block_index self + n) (_semi_block_samples self));
    [reflexivity | lia].
Qed.

Lemma pull_exhausted fuel n self :
  _semi_block_samples self < _semi_block_index self + n ->
  _semi_block_index self = _semi_block_samples self ->
  pull (S fuel) n self = pull fuel n (next_block self).
Proof.
  intros H E. simpl. unfold bind at 1 2, gets at 1 2.
  destruct (Z.leb_spec (_semi_block_index self + n) (_semi_block_samples self));
    [lia|].
  rewrite E, Z.eqb_refl. reflexivity.
Qed.

Lemma pull_spans fuel n self :
  _semi_block_samples self < _semi_block_index self + n ->
  _semi_block_index self <> _semi_block_samples self ->
  pull (S fuel) n self
  = match pull fuel (_semi_block_samples self - _semi_block_index self) self with
    | Ok self1 block_end =>
        match pull fuel (n - shape1 block_end) (next_block self1) with
        | Ok self2 new_block => np_concatenate1 block_end new_block self2
        | Raise e self2 => Raise e self2
        | OutOfFuel => OutOfFuel
        end
    | Raise e self1 => Raise e self1
    | OutOfFuel => OutOfFuel
    end.
Proof.
  intros H E. simpl. unfold bind at 1 2, gets at 1 2.
  destruct (Z.leb_spec (_semi_block_index self + n) (_semi_block_samples self));
    [lia|].
  destruct (Z.eqb_spec (_semi_block_index self) (_semi_block_samples self));
    [contradiction|].
  reflexivity.
Qed.

(** the three cases are exhaustive *)
Lemma pull_cases n self :
  _semi_block_index self + n <= _semi_block_samples self
  \/ (_semi_block_samples self < _semi_block_index self + n
      /\ _semi_block_index self = _semi_block_samples self)
  \/ (_semi_block_samples self < _semi_block_index self + n
      /\ _semi_block_index self <> _semi_block_samples self).
Proof. lia. Qed.

(** a larger recursion budget does not change a finished run *)
Lemma pull_fuel_S fuel : forall n self,
  pull fuel n self <> OutOfFuel -> pull (S fuel) n self = pull fuel n self.
Proof.
  induction fuel as [|fuel IH]; intros n self H; [now elim H|].
  destruct (pull_cases n self) as [Hc | [[Hc He] | [Hc He]]].
  - now rewrite !pull_fits.
  - rewrite pull_exhausted in H by auto.
    rewrite (pull_exhausted (S fuel) n self) by auto.
    rewrite (pull_exhausted fuel n self) by auto. auto.
  - rewrite pull_spans in H by auto.
    rewrite (pull_spans (S fuel) n self) by auto.
    rewrite (pull_spans fuel n self) by auto.
    destruct (pull fuel (_semi_block_samples self - _semi_block_index self) self)
      as [self1 block_end| |] eqn:E1; [| |now elim H];
      rewrite IH by (rewrite E1; discriminate); rewrite E1; [|reflexivity].
    destruct (pull fuel (n - shape1 block_end) (next_block self1))
      as [self2 new_block| |] eqn:E2; [| |now elim H];
      rewrite IH by (rewrite E2; discriminate); rewrite E2; reflexivity.
Qed.

Lemma pull_fuel_le fuel fuel' n self :
  (fuel <= fuel')%nat -> pull fuel n self <> OutOfFuel ->
  pull fuel' n self = pull fuel n self.
Proof.
  induction 1 as [|fuel' Hle IH]; intros H; [reflexivity|].
  rewrite pull_fuel_S; rewrite IH; auto.
Qed.

Lemma returns_intro fuel n self self' out :
  pull fuel n self = Ok self' out -> returns n self self' out.
Proof.
  intros H. exists fuel. intros fuel' Hle.
  rewrite (pull_fuel_le fuel); auto. rewrite H. discriminate.
Qed.

Lemma returns_unique n self self1 out1 self2 out2 :
  returns n self self1 out1 -> returns n self self2 out2 ->
  self1 = self2 /\ out1 = out2.
Proof.
  intros [f1 H1] [f2 H2].
  specialize (H1 (Nat.max f1 f2) (Nat.le_max_l _ _)).
  specialize (H2 (Nat.max f1 f2) (Nat.le_max_r _ _)).
  rewrite H1 in H2. inversion H2. auto.
Qed.

Lemma np_concatenate1_aligned (a b : ndarray) self :
  length a = length b -> np_concatenate1 a b self = Ok self (map2 (@app T) a b).
Proof. intros H. unfold np_concatenate1. now rewrite H, Nat.eqb_refl. Qed.

Lemma has_shape_concatenate (a b : ndarray) rows j k :
  0 <= j -> 0 <= k -> has_shape a rows j -> has_shape b rows k ->
  has_shape (map2 (@app T) a b) rows (j + k).
Proof.
  intros Hj Hk [Hla Hfa] [Hlb Hfb]. split.
  - rewrite map2_length; congruence.
  - clear Hla Hlb. revert b Hfb.
    induction Hfa as [|r a Hr Hfa IH]; intros b Hfb; [constructor|].
    destruct Hfb as [|r' b Hr' Hfb]; simpl; constructor.
    + rewrite length_app. lia.
    + apply IH; auto.
Qed.

Lemma in_semi_block_next_block self :
  0 <= _semi_block_samples self -> in_semi_block (next_block self).
Proof. unfold in_semi_block. simpl. lia. Qed.

(** ** What a returning [pull] establishes *)

Lemma pull_pulled fuel : forall n self self' out,
  shaped self -> in_semi_block self -> 0 <= n ->
  pull fuel n self = Ok self' out -> pulled n self self' out.
Proof.
  induction fuel as [|fuel IH]; intros n self self' out Hs Hi Hn H;
    [discriminate|].
  destruct Hi as [Hi0 Hi1].
  destruct (pull_cases n self) as [Hc | [[Hc He] | [Hc He]]].
  - rewrite pull_fits, take_from_semi_block_spec in H by auto.
    inversion H; subst; clear H.
    constructor; simpl; auto using shaped_advanced, semi_block_shape.
    unfold in_semi_block. simpl. lia.
  - rewrite pull_exhausted in H by auto.
    apply IH in H; auto using shaped_next_block.
    2:{ apply in_semi_block_next_block. lia. }
    destruct H. constructor; auto.
  - rewrite pull_spans in H by auto.
    destruct (pull fuel (_semi_block_samples self - _semi_block_index self) self)
      as [self1 block_end| |] eqn:E1; try discriminate.
    apply IH in E1; [|auto|split; auto|lia].
    destruct E1 as [Hs1 Hi1' Hsh1 Hch1 Hh1 Ho1].
    pose proof (shaped_channels _ Hs) as Hpos.
    assert (Hcols : shape1 block_end
                    = _semi_block_samples self - _semi_block_index self).
    { apply (has_shape_shape1 block_end (channels self)); auto; lia. }
    rewrite Hcols in H.
    destruct (pull fuel _ (next_block self1)) as [self2 new_block| |] eqn:E2;
      try discriminate.
    apply IH in E2; [|auto using shaped_next_block| |lia].
    2:{ apply in_semi_block_next_block. unfold in_semi_block in Hi1'. lia. }
    destruct E2 as [Hs2 Hi2 Hsh2 Hch2 Hh2 Ho2]. simpl in *.
    rewrite Hch1 in Hsh2.
    rewrite np_concatenate1_aligned in H.
    2:{ destruct Hsh1, Hsh2. congruence. }
    inversion H; subst; clear H.
    constructor; auto; try congruence; try lia.
    replace n with ((_semi_block_samples self - _semi_block_index self)
                    + (n - (_semi_block_samples self - _semi_block_index self)))
      at 1 by lia.
    apply has_shape_concatenate; auto; lia.
Qed.

(** ** Enough recursion budget makes [pull] return *)

Lemma pull_enough_fuel fuel : forall n self,
  shaped self -> in_semi_block self -> 0 < _semi_block_samples self -> 0 <= n ->
  2 * n + (if _semi_block_index self =? _semi_block_samples self then 1 else 0)
    < Z.of_nat fuel ->
  exists self' out, pull fuel n self = Ok self' out.
Proof.
  induction fuel as [|fuel IH]; intros n self Hs Hi Hh Hn Hf.
  { destruct (_semi_block_index self =? _semi_block_samples self); lia. }
  destruct Hi as [Hi0 Hi1].
  destruct (pull_cases n self) as [Hc | [[Hc He] | [Hc He]]].
  - rewrite pull_fits, take_from_semi_block_spec by auto. eauto.
  - rewrite pull_exhausted by auto.
    rewrite He, Z.eqb_refl in Hf.
    apply IH; auto using shaped_next_block.
    + apply in_semi_block_next_block. lia.
    + cbn [next_block advanced _semi_block_index _semi_block_samples].
      destruct (Z.eqb_spec 0 (_semi_block_samples self)); lia.
  - rewrite pull_spans by auto.
    destruct (Z.eqb_spec (_semi_block_index self) (_semi_block_samples self));
      [contradiction|].
    destruct fuel as [|fuel]; [lia|].
    rewrite (pull_fits fuel) by lia.
    rewrite take_from_semi_block_spec by (auto; lia).
    pose proof (shaped_channels _ Hs) as Hpos.
    assert (Hsh : has_shape
              (semi_block self
                 (Z.to_nat (_semi_block_samples self - _semi_block_index self)))
              (channels self)
              (_semi_block_samples self - _semi_block_index self)).
    { apply semi_block_shape; auto; lia. }
    rewrite (has_shape_shape1 _ (channels self)
               (_semi_block_samples self - _semi_block_index self))
      by (auto; lia).
    destruct (IH (n - (_semi_block_samples self - _semi_block_index self))
                 (next_block (advanced (_semi_block_samples self
                                        - _semi_block_index self) self)))
      as (self2 & new_block & E2);
      auto using shaped_next_block, shaped_advanced.
    + apply in_semi_block_next_block. simpl. lia.
    + lia.
    + cbn [next_block advanced _semi_block_index _semi_block_samples].
      destruct (Z.eqb_spec 0 (_semi_block_samples self)); lia.
    + rewrite E2.
      apply pull_pulled in E2; auto using shaped_next_block, shaped_advanced.
      * rewrite np_concatenate1_aligned; eauto.
        destruct E2 as [_ _ [Hl _] _ _ _]. destruct Hsh as [Hl' _].
        simpl in Hl. congruence.
      * apply in_semi_block_next_block. simpl. lia.
      * lia.
Qed.

(** ** The three cases, read as rules for [returns] *)

Lemma returns_fits n self :
  shaped self -> in_semi_block self -> 0 <= n ->
  _semi_block_index self + n <= _semi_block_samples self ->
  returns n self (advanced n self) (semi_block self (Z.to_nat n)).
Proof.
  intros Hs [Hi0 Hi1] Hn Hc. apply (returns_intro 1).
  now rewrite pull_fits, take_from_semi_block_spec.
Qed.

Lemma returns_exhausted n self self' out :
  _semi_block_samples self < _semi_block_index self + n ->
  _semi_block_index self = _semi_block_samples self ->
  returns n (next_block self) self' out <-> returns n self self' out.
Proof.
  intros Hc He. split; intros [f Hf].
  - exists (S f). intros [|f'] Hle; [lia|].
    rewrite pull_exhausted by auto. apply Hf. lia.
  - apply (returns_intro f). rewrite <- (pull_exhausted f n self) by auto.
    apply Hf. lia.
Qed.

Lemma spans_head_shape1 self :
  shaped self -> in_semi_block self ->
  shape1 (semi_block self
            (Z.to_nat (_semi_block_samples self - _semi_block_index self)))
  = _semi_block_samples self - _semi_block_index self.
Proof.
  intros Hs [Hi0 Hi1].
  apply (has_shape_shape1 _ (channels self)).
  - apply (shaped_channels _ Hs).
  - lia.
  - apply semi_block_shape; auto; lia.
Qed.

Lemma pull_spans_head fuel n self :
  shaped self -> in_semi_block self ->
  _semi_block_samples self < _semi_block_index self + n ->
  _semi_block_index self <> _semi_block_samples self ->
  pull (S (S fuel)) n self
  = match pull (S fuel) (n - (_semi_block_samples self - _semi_block_index self))
            (next_block (advanced (_semi_block_samples self
                                   - _semi_block_index self) self)) with
    | Ok self2 new_block =>
        Ok self2
           (map2 (@app T)
              (semi_block self
                 (Z.to_nat (_semi_block_samples self - _semi_block_index self)))
              new_block)
    | Raise e self2 => Raise e self2
    | OutOfFuel => OutOfFuel
    end.
Proof.
  intros Hs Hi Hc He. pose proof Hi as [Hi0 Hi1].
  rewrite pull_spans by auto.
  rewrite (pull_fits fuel) by lia.
  rewrite take_from_semi_block_spec by (auto; lia).
  rewrite spans_head_shape1 by auto.
  destruct (pull (S fuel) _ _) as [self2 new_block| |] eqn:E2; auto.
  apply pull_pulled in E2; auto using shaped_next_block, shaped_advanced; [| |lia].
  2:{ apply in_semi_block_next_block. simpl. lia. }
  apply np_concatenate1_aligned.
  destruct E2 as [_ _ [Hl _] _ _ _]. simpl in Hl. rewrite Hl.
  apply semi_block_shape; auto; lia.
Qed.

Lemma returns_spans n self self' out :
  shaped self -> in_semi_block self ->
  _semi_block_samples self < _semi_block_index self + n ->
  _semi_block_index self <> _semi_block_samples self ->
  returns n self self' out <->
  exists new_block,
    returns (n - (_semi_block_samples self - _semi_block_index self))
            (next_block (advanced (_semi_block_samples self
                                   - _semi_block_index self) self))
            self' new_block
    /\ out = map2 (@app T)
               (semi_block self
                  (Z.to_nat (_semi_block_samples self - _semi_block_index self)))
               new_block.
Proof.
  intros Hs Hi Hc He. split.
  - intros [f Hf]. specialize (Hf (S (S f)) ltac:(lia)).
    rewrite pull_spans_head in Hf by auto.
    destruct (pull (S f) _ _) as [self2 new_block| |] eqn:E2; try discriminate.
    inversion Hf; subst; clear Hf.
    exists new_block. split; auto. eapply returns_intro; eauto.
  - intros (new_block & [f Hf] & ->).
    exists (S (S f)). intros [|[|f']] Hle; try lia.
    rewrite pull_spans_head by auto. rewrite Hf by lia. reflexivity.
Qed.

(** ** Requests compose *)

Lemma returns_after_fits n1 n2 self self2 out2 :
  shaped self -> in_semi_block self -> 0 <= n1 -> 0 <= n2 ->
  _semi_block_index self + n1 <= _semi_block_samples self ->
  returns n2 (advanced n1 self) self2 out2 ->
  returns (n1 + n2) self self2
          (map2 (@app T) (semi_block self (Z.to_nat n1)) out2).
Proof.
  intros Hs Hi Hn1 Hn2 Hc1 H2. pose proof Hi as [Hi0 Hi1].
  assert (Hs1 : shaped (advanced n1 self)) by auto using shaped_advanced.
  assert (Hi' : in_semi_block (advanced n1 self)).
  { unfold in_semi_block. simpl. lia. }
  destruct (pull_cases n2 (advanced n1 self)) as [Hc | [[Hc He] | [Hc He]]];
    simpl in Hc; try (simpl in He).
  - (* both requests are served by the current semi-block *)
    destruct (returns_unique _ _ _ _ _ _ H2
                (returns_fits n2 (advanced n1 self) Hs1 Hi' Hn2 Hc)) as [-> ->].
    rewrite advanced_advanced, <- semi_block_app by auto.
    apply returns_fits; auto; lia.
  - (* the first request ends exactly on the boundary *)
    apply returns_exhausted in H2; auto.
    destruct (Z.eq_dec n1 0) as [->|Hpos].
    + rewrite advanced_0 in H2. rewrite Z.add_0_l.
      assert (Hl : length out2 = Z.to_nat (channels self)).
      { destruct H2 as [f Hf]. specialize (Hf f (Nat.le_refl _)).
        apply pull_pulled in Hf; auto using shaped_next_block.
        - destruct Hf as [_ _ [Hl _] _ _ _]. exact Hl.
        - apply in_semi_block_next_block. lia. }
      simpl. rewrite semi_block_0, map2_app_nil_l by auto.
      apply returns_exhausted; auto; lia.
    + apply returns_spans; auto; try lia.
      exists out2.
      replace (_semi_block_samples self - _semi_block_index self) with n1 by lia.
      replace (n1 + n2 - n1) with n2 by lia. auto.
  - (* the second request crosses the boundary *)
    apply returns_spans in H2; auto.
    destruct H2 as (new_block & H2 & ->).
    cbn [advanced _semi_block_samples _semi_block_index] in *.
    rewrite advanced_advanced in H2.
    rewrite <- map2_app_assoc.
    rewrite <- semi_block_app by (auto; lia).
    replace (n1 + (_semi_block_samples self - (_semi_block_index self + n1)))
      with (_semi_block_samples self - _semi_block_index self) in * by lia.
    apply returns_spans; auto; try lia.
    exists new_block. split; auto.
    replace (n1 + n2 - (_semi_block_samples self - _semi_block_index self))
      with (n2 - (_semi_block_samples self - (_semi_block_index self + n1)))
      by lia.
    exact H2.
Qed.

Lemma pull_then_returns fuel : forall n1 self self1 out1,
  shaped self -> in_semi_block self -> 0 <= n1 ->
  pull fuel n1 self = Ok self1 out1 ->
  forall n2 self2 out2, 0 <= n2 ->
    returns n2 self1 self2 out2 ->
    returns (n1 + n2) self self2 (map2 (@app T) out1 out2).
Proof.
  induction fuel as [|fuel IH]; intros n1 self self1 out1 Hs Hi Hn1 H1
    n2 self2 out2 Hn2 H2; [discriminate|].
  pose proof Hi as [Hi0 Hi1].
  destruct (pull_cases n1 self) as [Hc | [[Hc He] | [Hc He]]].
  - rewrite pull_fits, take_from_semi_block_spec in H1 by auto.
    inversion H1; subst; clear H1.
    now apply returns_after_fits.
  - rewrite pull_exhausted in H1 by auto.
    apply returns_exhausted; auto; [lia|].
    eapply IH; eauto using shaped_next_block.
    apply in_semi_block_next_block. lia.
  - destruct fuel as [|fuel].
    { rewrite pull_spans in H1 by auto. discriminate. }
    rewrite pull_spans_head in H1 by auto.
    destruct (pull (S fuel) _ _) as [self' new_block| |] eqn:E; try discriminate.
    inversion H1; subst; clear H1.
    rewrite map2_app_assoc.
    apply returns_spans; auto; [lia|].
    exists (map2 (@app T) new_block out2). split; auto.
    replace (n1 + n2 - (_semi_block_samples self - _semi_block_index self))
      with (n1 - (_semi_block_samples self - _semi_block_index self) + n2) by lia.
    eapply IH; eauto using shaped_next_block, shaped_advanced; [|lia].
    apply in_semi_block_next_block. simpl. lia.
Qed.

(** ** Rounding *)

Lemma py_round_nonneg x : (0 <= x)%Q -> 0 <= py_round x.
Proof.
  destruct x as [n d]. unfold Qle, py_round.
  cbn [Qnum Qden]. intros Hn. assert (0 <= n) by lia.
  assert (Hf : 0 <= (2 * n + Z.pos d) / (2 * Z.pos d)) by (apply Z.div_pos; lia).
  destruct (((2 * n + Z.pos d) mod (2 * Z.pos d) =? 0)
            && Z.odd ((2 * n + Z.pos d) / (2 * Z.pos d))) eqn:E; auto.
  apply andb_prop in E as [_ Hodd].
  destruct (Z.eq_dec ((2 * n + Z.pos d) / (2 * Z.pos d)) 0) as [E0|]; [|lia].
  rewrite E0 in Hodd. discriminate.
Qed.

(** the result is a nearest integer: it is within one half of [x] *)
Lemma py_round_nearest x :
  2 * Z.abs (Qnum x - py_round x * Z.pos (Qden x)) <= Z.pos (Qden x).
Proof.
  destruct x as [n d]. unfold py_round. cbn [Qnum Qden].
  assert (HD : 0 < Z.pos d) by lia. revert HD. generalize (Z.pos d) as D.
  intros D HD.
  pose proof (Z.div_mod (2 * n + D) (2 * D) ltac:(lia)) as Hdm.
  pose proof (Z.mod_pos_bound (2 * n + D) (2 * D) ltac:(lia)) as Hb.
  revert Hdm Hb.
  generalize ((2 * n + D) / (2 * D)) as q, ((2 * n + D) mod (2 * D)) as r.
  intros q r Hdm Hb.
  destruct (Z.eqb_spec r 0) as [E|E]; cbn [andb].
  - destruct (Z.odd q); nia.
  - nia.
Qed.

(** a tie goes to the even neighbour *)
Lemma py_round_tie x :
  2 * Z.abs (Qnum x - py_round x * Z.pos (Qden x)) = Z.pos (Qden x) ->
  Z.even (py_round x) = true.
Proof.
  destruct x as [n d]. unfold py_round. cbn [Qnum Qden].
  assert (HD : 0 < Z.pos d) by lia. revert HD. generalize (Z.pos d) as D.
  intros D HD.
  pose proof (Z.div_mod (2 * n + D) (2 * D) ltac:(lia)) as Hdm.
  pose proof (Z.mod_pos_bound (2 * n + D) (2 * D) ltac:(lia)) as Hb.
  revert Hdm Hb.
  generalize ((2 * n + D) / (2 * D)) as q, ((2 * n + D) mod (2 * D)) as r.
  intros q r Hdm Hb.
  destruct (Z.eqb_spec r 0) as [E|E]; cbn [andb].
  - destruct (Z.odd q) eqn:Hodd; intros _.
    + rewrite Z.even_sub. rewrite <- Z.negb_odd, Hodd. reflexivity.
    + now rewrite <- Z.negb_odd, Hodd.
  - intros H. exfalso. nia.
Qed.

(** ** Indexing an extracted chunk *)

Lemma nth_map2 {A B C} (f : A -> B -> C) xs ys j da db dc :
  (j < length xs)%nat -> (j < length ys)%nat ->
  nth j (map2 f xs ys) dc = f (nth j xs da) (nth j ys db).
Proof.
  revert ys j; induction xs as [|x xs IH]; intros [|y ys] [|j] Hx Hy;
    simpl in *; try lia; auto.
  apply IH; lia.
Qed.

Lemma nth_zrange_map (g : Z -> T) start k j d :
  (j < k)%nat -> nth j (map g (zrange start k)) d = g (start + Z.of_nat j).
Proof.
  intros H. unfold zrange. rewrite map_map.
  rewrite (nth_indep _ d (g (start + Z.of_nat 0))) by now rewrite length_map, length_seq.
  rewrite (map_nth (fun j => g (start + Z.of_nat j)) (seq 0 k) 0%nat).
  now rewrite seq_nth.
Qed.

Lemma nth_firstn_skipn (l : list T) a k j d :
  (j < k)%nat -> nth j (firstn k (skipn a l)) d = nth (a + j) l d.
Proof.
  intros H. rewrite nth_firstn.
  destruct (Nat.ltb_spec j k); [|lia]. apply nth_skipn.
Qed.

Lemma nth_semi_block self k c :
  shaped self -> (c < Z.to_nat (channels self))%nat ->
  nth c (semi_block self k) [] = semi_block_row self k c (nth c (window self) []).
Proof.
  intros Hs Hc. unfold semi_block.
  assert (Hl : length (seq 0 (Pos.to_nat (buf_channels (input_buffer self))))
               = length (window self)).
  { rewrite length_seq, (shaped_rows _ Hs), <- (shaped_buffer _ Hs). lia. }
  rewrite (nth_indep _ [] ((fun p : nat * list T =>
                              semi_block_row self k (fst p) (snd p)) (0%nat, []))).
  2:{ rewrite length_map, length_combine, <- Hl, Nat.min_id, length_seq.
      rewrite <- (shaped_buffer _ Hs) in Hc. lia. }
  rewrite (map_nth (fun p : nat * list T => semi_block_row self k (fst p) (snd p))).
  rewrite combine_nth by auto. simpl.
  rewrite seq_nth; auto.
  rewrite <- (shaped_buffer _ Hs) in Hc. lia.
Qed.

(** ** The claims about single operations *)

Section Commutative.

Hypothesis mul_comm : forall a b : T, mul a b = mul b a.

(** C2 (semi-block extraction).  On a well-formed object whose
    semi-block cursor is in range, [_take_from_semi_block k] with
    [0 <= k] and [semi_block_index + k <= semi_block_samples] returns a
    [channels x k] array whose entry at channel [c], offset [j] is
    [window[c, sbi + j] * source[c, input_block_index + j]
     + window[c, semi_block_samples + sbi + j] * source[c, sum_buffer_index + j]],
    moves each of the four cursors forward by exactly [k], and leaves
    [block_size], [channels], the window and [inv_time_factor] (and the
    source and the half-block length) as they were. *)
Theorem take_from_semi_block_postcondition self k :
  shaped self -> 0 <= _semi_block_index self -> 0 <= k ->
  _semi_block_index self + k <= _semi_block_samples self ->
  exists self' out,
    _take_from_semi_block k self = Ok self' out
    /\ has_shape out (channels self) k
    /\ (forall c j d, 0 <= c < channels self -> 0 <= j < k ->
          item out c j d
          = add (mul (item (window self) c (_semi_block_index self + j) d)
                     (buf_sample (input_buffer self) (Z.to_nat c)
                                 (_input_block_index self + j)))
                (mul (item (window self) c
                           (_semi_block_samples self + _semi_block_index self + j) d)
                     (buf_sample (input_buffer self) (Z.to_nat c)
                                 (_sum_buffer_index self + j))))
    /\ _input_block_index self' = _input_block_index self + k
    /\ _sum_buffer_index self' = _sum_buffer_index self + k
    /\ _output_index self' = _output_index self + k
    /\ _semi_block_index self' = _semi_block_index self + k
    /\ block_size self' = block_size self
    /\ channels self' = channels self
    /\ window self' = window self
    /\ inv_time_factor self' = inv_time_factor self
    /\ input_buffer self' = input_buffer self
    /\ _semi_block_samples self' = _semi_block_samples self.
Proof.
  intros Hs Hi Hk Hle.
  exists (advanced k self), (semi_block self (Z.to_nat k)).
  split; [now apply take_from_semi_block_spec|].
  split; [now apply semi_block_shape|].
  split; [|simpl; repeat split; reflexivity].
  intros c j d Hc Hj. unfold item.
  pose proof (shaped_double _ Hs) as Hd.
  pose proof (shaped_cols _ Hs) as Hcols. rewrite Forall_forall in Hcols.
  assert (Hrow : length (nth (Z.to_nat c) (window self) [])
                 = Z.to_nat (block_size self)).
  { apply Hcols, nth_In. rewrite (shaped_rows _ Hs). lia. }
  rewrite nth_semi_block by (auto; lia).
  unfold semi_block_row.
  assert (Hlen : forall start ws, 0 <= ws -> ws + k <= block_size self ->
    (Z.to_nat j
     < length (map2 mul
                 (map (buf_sample (input_buffer self) (Z.to_nat c))
                      (zrange start (Z.to_nat k)))
                 (firstn (Z.to_nat k)
                    (skipn (Z.to_nat ws) (nth (Z.to_nat c) (window self) [])))))%nat).
  { intros start ws H0 H1.
    rewrite map2_length; rewrite length_map, zrange_length; [lia|].
    symmetry. apply firstn_skipn_length. lia. }
  rewrite (nth_map2 add _ _ _ d d) by (apply Hlen; lia).
  assert (Hcell : forall start ws, 0 <= ws -> ws + k <= block_size self ->
    nth (Z.to_nat j)
        (map2 mul
           (map (buf_sample (input_buffer self) (Z.to_nat c))
                (zrange start (Z.to_nat k)))
           (firstn (Z.to_nat k)
              (skipn (Z.to_nat ws) (nth (Z.to_nat c) (window self) [])))) d
    = mul (nth (Z.to_nat (ws + j)) (nth (Z.to_nat c) (window self) []) d)
          (buf_sample (input_buffer self) (Z.to_nat c) (start + j))).
  { intros start ws H0 H1.
    rewrite (nth_map2 mul _ _ _ d d).
    - rewrite nth_zrange_map, nth_firstn_skipn by lia.
      rewrite mul_comm. f_equal; f_equal; lia.
    - rewrite length_map, zrange_length. lia.
    - rewrite firstn_skipn_length; lia. }
  rewrite !Hcell by lia. reflexivity.
Qed.

End Commutative.

(** C10 (the rate setter).  [set_rate rate] succeeds for every value,
    zero and negative ones included, stores exactly [rate] in
    [inv_time_factor], and leaves [block_size], [channels], the window
    and the four cursors untouched; so nothing in the engine keeps the
    rate positive. *)
Theorem set_rate_total rate self :
  exists self',
    set_rate rate self = Ok self' tt
    /\ inv_time_factor self' = rate
    /\ block_size self' = block_size self
    /\ channels self' = channels self
    /\ window self' = window self
    /\ input_buffer self' = input_buffer self
    /\ _semi_block_samples self' = _semi_block_samples self
    /\ _semi_block_index self' = _semi_block_index self
    /\ _input_block_index self' = _input_block_index self
    /\ _sum_buffer_index self' = _sum_buffer_index self
    /\ _output_index self' = _output_index self.
Proof.
  exists (set_inv_time_factor rate self). simpl. repeat split; reflexivity.
Qed.

(** C7 (zero time factor).  [set_time_factor] of a zero factor, under
    any denominator, fails with the exception of the division,
    [ZeroDivisionError], and the object it leaves is the object it
    found: in particular [inv_time_factor] holds its previous value, and
    no rate is stored. *)
Theorem set_time_factor_zero self den :
  set_time_factor (0 # den) self = Raise ZeroDivisionError self
  /\ forall e self', set_time_factor (0 # den) self = Raise e self' ->
       inv_time_factor self' = inv_time_factor self.
Proof.
  split; [reflexivity|].
  intros e self' H. inversion H. reflexivity.
Qed.

(** C8, as amended (the constructor checks nothing).  For every
    [block_size] and every [channels], positive or not, [__init__]
    completes and yields the object with those two values, one window
    row per channel, rate 1, half block [block_size // 2] and all four
    cursors at zero; no error is raised. *)
Theorem init_total input_buffer block_size channels :
  __init__ input_buffer block_size channels
  = Ok {| block_size := block_size;
          channels := channels;
          input_buffer := input_buffer;
          window := repeat (hanning block_size) (Z.to_nat channels);
          inv_time_factor := 1;
          _semi_block_samples := block_size / 2;
          _semi_block_index := 0;
          _input_block_index := 0;
          _sum_buffer_index := 0;
          _output_index := 0 |} tt.
Proof. reflexivity. Qed.

(** ** The claims about [pull] *)

Lemma shaped_half_positive self :
  shaped self -> 2 <= block_size self -> 0 < _semi_block_samples self.
Proof.
  intros Hs Hb. rewrite (shaped_half _ Hs).
  apply Z.div_str_pos. lia.
Qed.

Lemma returns_total n self :
  shaped self -> in_semi_block self -> 0 < _semi_block_samples self -> 0 <= n ->
  exists self' out, returns n self self' out /\ pulled n self self' out.
Proof.
  intros Hs Hi Hh Hn.
  destruct (pull_enough_fuel (Z.to_nat (2 * n + 2)) n self) as (self' & out & H);
    auto.
  { destruct (_semi_block_index self =? _semi_block_samples self); lia. }
  exists self', out. split.
  - eapply returns_intro; eauto.
  - eapply pull_pulled; eauto.
Qed.


(** C5 (zero-length request).  On a well-formed object with the
    semi-block cursor in range, [pull 0] returns an array of [channels]
    rows and no columns and leaves the object exactly as it was: the four
    cursors and every other field.  The outcome is the same whatever
    samples the source holds, so none of them is consulted. *)
Theorem pull_zero_noop self fuel :
  shaped self -> in_semi_block self ->
  pull (S fuel) 0 self = Ok self (repeat [] (Z.to_nat (channels self)))
  /\ has_shape (repeat [] (Z.to_nat (channels self))) (channels self) 0
  /\ forall buf, buf_channels buf = buf_channels (input_buffer self) ->
       pull (S fuel) 0 (set_input_buffer buf self)
       = Ok (set_input_buffer buf self) (repeat [] (Z.to_nat (channels self))).
Proof.
  intros Hs [Hi0 Hi1].
  assert (H : forall o, shaped o -> 0 <= _semi_block_index o <= _semi_block_samples o ->
            pull (S fuel) 0 o = Ok o (repeat [] (Z.to_nat (channels o)))).
  { intros o Ho [H0 H1].
    rewrite pull_fits, take_from_semi_block_spec by (auto; lia).
    now rewrite advanced_0, semi_block_0. }
  split; [apply H; auto|]. split.
  - split; [apply repeat_length|].
    apply Forall_forall. intros r Hr. apply repeat_spec in Hr. now subst.
  - intros buf Hbuf. apply (H (set_input_buffer buf self)); simpl; auto.
    destruct Hs. constructor; simpl; auto. congruence.
Qed.


Lemma take_from_semi_block_backwards self n :
  shaped self -> n <= 0 -> 0 <= _semi_block_index self + n ->
  0 <= _semi_block_samples self ->
  _take_from_semi_block n self
  = Ok (advanced n self) (repeat [] (Z.to_nat (channels self))).
Proof.
  intros Hs Hn Hi Hh.
  assert (Hrows : length (seq 0 (Pos.to_nat (buf_channels (input_buffer self))))
                  = length (window self)).
  { rewrite length_seq, (shaped_rows _ Hs), <- (shaped_buffer _ Hs). lia. }
  assert (Hwin : forall start, 0 <= start + n ->
             map (fun row : list T => py_slice row start (start + n)) (window self)
             = map (fun _ => []) (window self)).
  { intros start H0. apply map_ext. intros row.
    apply py_slice_backwards. lia. }
  assert (Hnil : forall A (l : list A),
             rows_of_length 0 (map (fun _ => @nil T) l)).
  { intros A l. apply rows_of_length_map. reflexivity. }
  unfold _take_from_semi_block, bind, gets.
  rewrite get_window_slice_spec by auto. rewrite Hwin by lia.
  unfold getitem.
  replace (Z.to_nat (_input_block_index self + n - _input_block_index self))
    with 0%nat by lia.
  cbn [zrange seq map].
  aligned np_multiply_aligned 0%nat.
  rewrite get_window_slice_spec by auto. rewrite Hwin by lia.
  replace (Z.to_nat (_sum_buffer_index self + n - _sum_buffer_index self))
    with 0%nat by lia.
  cbn [zrange seq map].
  aligned np_multiply_aligned 0%nat.
  rewrite increment_indices_spec. unfold _process_current_block, ret.
  rewrite !map2_map_map.
  aligned np_sum2_aligned 0%nat.
  rewrite map2_map_same. cbn [map2].
  rewrite map_const, length_combine, Hrows, Nat.min_id, (shaped_rows _ Hs).
  reflexivity.
Qed.

(** C9, as amended (negative requests are not checked).  [pull] does
    not validate its argument.  On a well-formed object with the
    semi-block cursor in range, a negative request [n] that does not
    reach below the start of the semi-block ([0 <= semi_block_index + n])
    raises nothing: it returns an array of [channels] rows and no
    columns and moves all four cursors by [n], that is backwards. *)
Theorem pull_negative_unchecked self n fuel :
  shaped self -> in_semi_block self -> n < 0 ->
  0 <= _semi_block_index self + n ->
  pull (S fuel) n self
  = Ok (advanced n self) (repeat [] (Z.to_nat (channels self)))
  /\ _output_index (advanced n self) = _output_index self + n
  /\ _input_block_index (advanced n self) = _input_block_index self + n
  /\ _sum_buffer_index (advanced n self) = _sum_buffer_index self + n
  /\ _semi_block_index (advanced n self) = _semi_block_index self + n.
Proof.
  intros Hs [Hi0 Hi1] Hn Hlow.
  rewrite pull_fits by lia.
  rewrite take_from_semi_block_backwards by (auto; lia).
  simpl. repeat split; reflexivity.
Qed.

(** ** The cursors across a session *)

Lemma cursors_ok_advanced k self :
  0 <= k -> _semi_block_index self + k <= _semi_block_samples self ->
  cursors_ok self -> cursors_ok (advanced k self).
Proof.
  intros Hk Hle [[Hi0 Hi1] Hin Hsum Hout Hrate].
  constructor; unfold in_semi_block; simpl; auto; lia.
Qed.

Lemma cursors_ok_next_block self :
  cursors_ok self -> cursors_ok (next_block self).
Proof.
  intros [[Hi0 Hi1] Hin Hsum Hout Hrate].
  constructor; unfold in_semi_block; simpl; auto; try lia.
  apply py_round_nonneg. apply Qmult_le_0_compat; auto.
  unfold Qle. cbn [Qnum Qden inject_Z]. lia.
Qed.

Lemma pull_cursors_ok fuel : forall n self self' out,
  shaped self -> cursors_ok self -> 0 <= n ->
  pull fuel n self = Ok self' out -> cursors_ok self'.
Proof.
  induction fuel as [|fuel IH]; intros n self self' out Hs Hok Hn H;
    [discriminate|].
  pose proof (cursors_semi_block _ Hok) as Hi. pose proof Hi as [Hi0 Hi1].
  destruct (pull_cases n self) as [Hc | [[Hc He] | [Hc He]]].
  - rewrite pull_fits, take_from_semi_block_spec in H by auto.
    inversion H; subst. apply cursors_ok_advanced; auto.
  - rewrite pull_exhausted in H by auto.
    apply (IH n (next_block self) self' out);
      auto using shaped_next_block, cursors_ok_next_block.
  - destruct fuel as [|fuel].
    { rewrite pull_spans in H by auto. discriminate. }
    rewrite pull_spans_head in H by auto.
    destruct (pull (S fuel) _ _) as [self2 new_block| |] eqn:E; try discriminate.
    inversion H; subst; clear H.
    apply IH in E; auto using shaped_next_block, shaped_advanced; [|lia].
    apply cursors_ok_next_block, cursors_ok_advanced; auto; lia.
Qed.

Lemma shaped_set_inv_time_factor v self :
  shaped self -> shaped (set_inv_time_factor v self).
Proof. intros []. constructor; simpl; auto. Qed.

Lemma cursors_ok_set_inv_time_factor v self :
  (0 <= v)%Q -> cursors_ok self -> cursors_ok (set_inv_time_factor v self).
Proof. intros Hv [[Hi0 Hi1] Hin Hsum Hout Hrate]. constructor; simpl; auto. split; auto. Qed.

Lemma perform_keeps fuel c self self' :
  shaped self -> cursors_ok self -> admissible c ->
  perform fuel c self = Ok self' tt -> shaped self' /\ cursors_ok self'.
Proof.
  intros Hs Hok Hc H. destruct c as [n|rate|time_factor]; simpl in *.
  - unfold bind in H.
    destruct (pull fuel n self) as [self1 out| |] eqn:E; try discriminate.
    inversion H; subst; clear H. split.
    + eapply pull_pulled; eauto. apply Hok.
    + eapply pull_cursors_ok; eauto.
  - inversion H; subst; clear H. split.
    + now apply shaped_set_inv_time_factor.
    + apply cursors_ok_set_inv_time_factor; auto. now apply Qlt_le_weak.
  - unfold set_time_factor in H.
    destruct (Z.eqb_spec (Qnum time_factor) 0) as [E|E].
    { unfold Qlt in Hc. simpl in Hc. lia. }
    inversion H; subst; clear H. split.
    + now apply shaped_set_inv_time_factor.
    + apply cursors_ok_set_inv_time_factor; auto.
      apply Qlt_le_weak. unfold Qdiv. rewrite Qmult_1_l.
      now apply Qinv_lt_0_compat.
Qed.

Lemma run_keeps fuel cs : forall self self',
  shaped self -> cursors_ok self -> Forall admissible cs ->
  run fuel cs self = Ok self' tt -> shaped self' /\ cursors_ok self'.
Proof.
  induction cs as [|c cs IH]; intros self self' Hs Hok Hcs H; simpl in H.
  - inversion H; subst. auto.
  - inversion Hcs; subst. unfold bind in H.
    destruct (perform fuel c self) as [self1 []| |] eqn:E; try discriminate.
    destruct (perform_keeps _ _ _ _ Hs Hok H2 E) as [Hs1 Hok1].
    eapply IH; eauto.
Qed.

Lemma perform_completes fuel c self :
  shaped self -> cursors_ok self -> 0 < _semi_block_samples self ->
  admissible c -> affordable fuel c ->
  exists self', perform fuel c self = Ok self' tt
                /\ _semi_block_samples self' = _semi_block_samples self.
Proof.
  intros Hs Hok Hh Hc Hf.
  destruct c as [n|rate|time_factor]; cbn [perform admissible affordable] in *.
  - destruct (pull_enough_fuel fuel n self) as (self' & out & H); auto.
    { apply Hok. }
    { destruct (_semi_block_index self =? _semi_block_samples self); lia. }
    exists self'. unfold bind. rewrite H. split; auto.
    eapply pull_pulled; eauto. apply Hok.
  - eexists. split; reflexivity.
  - unfold set_time_factor.
    destruct (Z.eqb_spec (Qnum time_factor) 0) as [E|E].
    { unfold Qlt in Hc. simpl in Hc. lia. }
    eexists. split; reflexivity.
Qed.

(** a session of admissible calls runs to its end on blocks of at least
    two samples *)
Lemma session_completes fuel cs : forall self,
  shaped self -> cursors_ok self -> 0 < _semi_block_samples self ->
  Forall admissible cs -> Forall (affordable fuel) cs ->
  exists self', run fuel cs self = Ok self' tt.
Proof.
  induction cs as [|c cs IH]; intros self Hs Hok Hh Hcs Hfs; simpl.
  - eexists. reflexivity.
  - apply Forall_cons_iff in Hcs as [Hc Hcs].
    apply Forall_cons_iff in Hfs as [Hf Hfs].
    destruct (perform_completes fuel c self) as (self1 & E & Hh1); auto.
    destruct (perform_keeps _ _ _ _ Hs Hok Hc E) as [Hs1 Hok1].
    unfold bind. rewrite E. apply IH; auto. lia.
Qed.

Section Window.

(** [np.hanning(M)] has [M] entries, none when [M < 1]. *)
Hypothesis hanning_length : forall M, length (hanning M) = Z.to_nat M.

Lemma init_shaped input_buffer block_size channels self :
  0 <= block_size -> 0 < channels ->
  Z.pos (buf_channels input_buffer) = channels ->
  __init__ input_buffer block_size channels = Ok self tt ->
  shaped self /\ cursors_ok self.
Proof.
  intros Hb Hc Hbuf H. inversion H; subst; clear H. split.
  - constructor; simpl; auto.
    + apply repeat_length.
    + apply Forall_forall. intros r Hr. apply repeat_spec in Hr. subst.
      apply hanning_length.
  - constructor; unfold in_semi_block; simpl; try lia.
    + split; [lia|]. apply Z.div_pos; lia.
    + discriminate.
Qed.

(** C4, as amended (cursor invariant).  Take an engine built with
    [block_size >= 0] and positive [channels] over a source of that many
    channels, and drive it by any sequence of completed calls to [pull]
    with non-negative requests and to [set_rate] and [set_time_factor]
    with positive arguments.  After the sequence, that is at the start of
    whatever [pull] comes next, [0 <= semi_block_index <=
    semi_block_samples], [input_block_index >= 0] and
    [sum_buffer_index >= 0].  Nothing is said of the order of the two
    read heads. *)
Theorem cursor_invariant fuel cs input_buffer block_size channels self0 self :
  0 <= block_size -> 0 < channels ->
  Z.pos (buf_channels input_buffer) = channels ->
  Forall admissible cs ->
  __init__ input_buffer block_size channels = Ok self0 tt ->
  run fuel cs self0 = Ok self tt ->
  0 <= _semi_block_index self <= _semi_block_samples self
  /\ 0 <= _input_block_index self
  /\ 0 <= _sum_buffer_index self.
Proof.
  intros Hb Hc Hbuf Hcs H0 Hrun.
  destruct (init_shaped _ _ _ _ Hb Hc Hbuf H0) as [Hs0 Hok0].
  destruct (run_keeps _ _ _ _ Hs0 Hok0 Hcs Hrun) as [_ Hok].
  destruct Hok as [Hi Hin Hsum _ _]. auto.
Qed.

End Window.

(** * Further properties of the engine *)

(** ** What no method touches *)

Lemma same_config_refl self : same_config self self.
Proof. repeat split. Qed.

Lemma same_config_trans a b c :
  same_config a b -> same_config b c -> same_config a c.
Proof.
  intros (H1 & H2 & H3 & H4 & H5 & H6) (K1 & K2 & K3 & K4 & K5 & K6).
  repeat split; congruence.
Qed.

Lemma keeps_bind {A B} (m : M A) (k : A -> M B) :
  keeps_config m -> (forall a, keeps_config (k a)) -> keeps_config (bind m k).
Proof.
  intros Hm Hk self. unfold bind. specialize (Hm self).
  destruct (m self) as [self1 a| |]; simpl in *; auto.
  specialize (Hk a self1). destruct (k a self1); simpl in *;
    eauto using same_config_trans.
Qed.

Lemma keeps_ret {A} (a : A) : keeps_config (ret a).
Proof. intros self. apply same_config_refl. Qed.

Lemma keeps_raise {A} e : keeps_config (@raise A e).
Proof. intros self. apply same_config_refl. Qed.

Lemma keeps_gets {A} (f : OverlapAdd -> A) : keeps_config (gets f).
Proof. intros self. apply same_config_refl. Qed.

Lemma keeps_lift {A} e (o : option A) : keeps_config (lift e o).
Proof. destruct o; [apply keeps_ret | apply keeps_raise]. Qed.

Lemma keeps_modify f :
  (forall self, same_config self (f self)) -> keeps_config (modify f).
Proof. intros H self. apply H. Qed.

Lemma keeps_take_from_semi_block samples :
  keeps_config (_take_from_semi_block samples).
Proof.
  unfold _take_from_semi_block, _get_window_slice, _increment_indices,
    _process_current_block, np_multiply, np_sum2.
  repeat first
    [ apply keeps_bind; [|intros]
    | apply keeps_gets | apply keeps_ret | apply keeps_raise | apply keeps_lift
    | apply keeps_modify; intros; repeat split
    | match goal with
      | |- keeps_config (match ?x with _ => _ end) => destruct x
      | |- keeps_config (if ?x then _ else _) => destruct x
      end ].
Qed.

Lemma keeps_update_block_indices : keeps_config _update_block_indices.
Proof.
  unfold _update_block_indices.
  repeat first [ apply keeps_bind; [|intros]
               | apply keeps_modify; intros; repeat split ].
Qed.

Lemma keeps_pull fuel : forall samples, keeps_config (pull fuel samples).
Proof.
  induction fuel as [|fuel IH]; intros samples; [intros self; exact I|].
  cbn [pull].
  repeat first
    [ apply keeps_take_from_semi_block
    | apply keeps_update_block_indices | apply IH | apply keeps_gets
    | match goal with
      | |- keeps_config (if ?x then _ else _) => destruct x
      | |- keeps_config (np_concatenate1 ?a ?b) =>
          unfold np_concatenate1;
          destruct (Nat.eqb (length a) (length b));
          [apply keeps_ret | apply keeps_raise]
      end
    | apply keeps_bind; [|intros] ].
Qed.

(** X2.  [pull] writes the four cursors and nothing else: whatever the
    object, the request (negative ones included) and the recursion
    budget, and whether the call returns or raises, [block_size],
    [channels], the source, the window, the rate and the half-block
    length are what they were. *)
Theorem pull_keeps_configuration fuel samples self :
  lands (same_config self) (pull fuel samples self).
Proof. apply keeps_pull. Qed.

(** ** Degenerate engines *)


Lemma pull_without_window fuel samples self :
  window self = [] ->
  (_semi_block_index self + samples <= _semi_block_samples self
   \/ _semi_block_index self <> _semi_block_samples self) ->
  pull (S (S fuel)) samples self = Raise IndexError self.
Proof.
  intros Hw Hc.
  assert (Htake : forall k, _take_from_semi_block k self = Raise IndexError self).
  { intros k. unfold _take_from_semi_block, _get_window_slice, bind, gets.
    rewrite Hw. reflexivity. }
  destruct (pull_cases samples self) as [Hf | [[Hf He] | [Hf He]]].
  - now rewrite pull_fits.
  - destruct Hc; [lia | contradiction].
  - rewrite pull_spans by auto.
    rewrite pull_fits by lia. now rewrite Htake.
Qed.

(** X8.  An engine constructed with [channels <= 0] (and blocks of at
    least two samples) has a window without rows; every [pull] on it,
    whatever the request, raises [IndexError] at the first window slice
    and leaves the object as constructed. *)
Theorem pull_without_channels input_buffer block_size channels self fuel samples :
  channels <= 0 -> 2 <= block_size ->
  __init__ input_buffer block_size channels = Ok self tt ->
  pull (S (S fuel)) samples self = Raise IndexError self.
Proof.
  intros Hc Hb H. inversion H; subst; clear H.
  apply pull_without_window; simpl.
  - replace (Z.to_nat channels) with 0%nat by lia. reflexivity.
  - right. assert (0 < block_size / 2) by (apply Z.div_str_pos; lia). lia.
Qed.

(** ** Requests and the rate *)

(** X3.  A request that fits in what is left of the semi-block is served
    without looking at the rate: after the rate is overwritten with any
    value, [pull] returns the same samples and moves the cursors the
    same way.  A new rate shows only from the next block boundary on. *)
Theorem pull_before_boundary_ignores_rate fuel samples rate self :
  shaped self -> in_semi_block self -> 0 <= samples ->
  _semi_block_index self + samples <= _semi_block_samples self ->
  exists out,
    pull (S fuel) samples self = Ok (advanced samples self) out
    /\ pull (S fuel) samples (set_inv_time_factor rate self)
       = Ok (set_inv_time_factor rate (advanced samples self)) out.
Proof.
  intros Hs [Hi0 Hi1] Hn Hc.
  exists (semi_block self (Z.to_nat samples)). split.
  - now rewrite pull_fits, take_from_semi_block_spec.
  - rewrite pull_fits by auto.
    rewrite take_from_semi_block_spec; auto using shaped_set_inv_time_factor.
Qed.

(** X1.  A [pull] of [n >= 0] samples that returns hands back exactly
    [n] columns in each of the [channels] rows, has advanced
    [output_index] by exactly [n], and leaves a well-formed object whose
    semi-block cursor is in range again. *)
Theorem pull_progress fuel samples self self' out :
  shaped self -> in_semi_block self -> 0 <= samples ->
  pull fuel samples self = Ok self' out ->
  has_shape out (channels self) samples
  /\ _output_index self' = _output_index self + samples
  /\ shaped self'
  /\ in_semi_block self'.
Proof.
  intros Hs Hi Hn H.
  destruct (pull_pulled _ _ _ _ _ Hs Hi Hn H) as [Hs' Hi' Hsh _ _ Ho]. auto.
Qed.

Lemma py_round_unit_rate k rate :
  (rate == 1)%Q -> py_round (inject_Z k * rate) = k.
Proof.
  destruct rate as [a b]. unfold Qeq, py_round, Qmult, inject_Z.
  cbn [Qnum Qden]. intros E.
  replace (Z.pos (1 * b)) with (Z.pos b) by reflexivity.
  assert (Ha : a = Z.pos b) by lia. subst a.
  assert (Hd : 0 < Z.pos b) by lia. revert Hd.
  generalize (Z.pos b) as d. intros d Hd.
  assert (Hq : (2 * (k * d) + d) / (2 * d) = k).
  { symmetry. apply (Z.div_unique _ _ k d); lia. }
  assert (Hr : (2 * (k * d) + d) mod (2 * d) = d).
  { symmetry. apply (Z.mod_unique _ _ k d); lia. }
  rewrite Hq, Hr. destruct (Z.eqb_spec d 0); [lia|reflexivity].
Qed.

(** X5.  Where a returning request of [n >= 0] samples leaves the
    semi-block cursor: at [semi_block_index + n] when that fits in the
    semi-block, and otherwise at
    [(semi_block_index + n - 1) mod semi_block_samples + 1]; a request
    that crosses a boundary never ends on cursor 0. *)
Theorem pull_final_semi_block_index fuel : forall samples self self' out,
  shaped self -> in_semi_block self -> 0 <= samples ->
  pull fuel samples self = Ok self' out ->
  _semi_block_index self' = final_semi_block_index self samples
  /\ (_semi_block_samples self < _semi_block_index self + samples ->
      0 < _semi_block_index self').
Proof.
  assert (Hwrap : forall sbs r, 1 <= r ->
            (r - 1 + 1 * sbs) mod sbs + 1
            = if r <=? sbs then r else (r - 1) mod sbs + 1).
  { intros sbs r Hr. rewrite Z_mod_plus_full.
    destruct (Z.leb_spec r sbs); auto.
    rewrite Z.mod_small; lia. }
  assert (Hpos : forall sbs r, 1 <= r -> 0 <= sbs ->
            0 < (if r <=? sbs then r else (r - 1) mod sbs + 1)).
  { intros sbs r Hr Hsbs. destruct (Z.leb_spec r sbs); [lia|].
    destruct (Z.eq_dec sbs 0) as [->|Hnz].
    - rewrite Z.mod_0_r. lia.
    - pose proof (Z.mod_pos_bound (r - 1) sbs ltac:(lia)). lia. }
  induction fuel as [|fuel IH]; intros n self self' out Hs Hi Hn H;
    [discriminate|].
  pose proof Hi as [Hi0 Hi1]. unfold final_semi_block_index.
  destruct (pull_cases n self) as [Hc | [[Hc He] | [Hc He]]].
  - rewrite pull_fits, take_from_semi_block_spec in H by auto.
    inversion H; subst. simpl.
    destruct (Z.leb_spec (_semi_block_index self + n) (_semi_block_samples self));
      lia.
  - rewrite pull_exhausted in H by auto.
    apply IH in H; auto using shaped_next_block.
    2:{ apply in_semi_block_next_block. lia. }
    destruct H as [H _]. unfold final_semi_block_index in H.
    cbn [next_block _semi_block_index _semi_block_samples] in H.
    rewrite Z.add_0_l in H. rewrite H.
    destruct (Z.leb_spec (_semi_block_index self + n) (_semi_block_samples self));
      [lia|].
    replace (_semi_block_index self + n - 1)
      with (n - 1 + 1 * _semi_block_samples self) by lia.
    rewrite Hwrap by lia. split; [reflexivity|].
    intros _. apply Hpos; lia.
  - destruct fuel as [|fuel].
    { rewrite pull_spans in H by auto. discriminate. }
    rewrite pull_spans_head in H by auto.
    destruct (pull (S fuel) _ _) as [self2 new_block| |] eqn:E; try discriminate.
    inversion H; subst; clear H.
    apply IH in E; auto using shaped_next_block, shaped_advanced; [| |lia].
    2:{ apply in_semi_block_next_block. simpl. lia. }
    destruct E as [E _]. unfold final_semi_block_index in E.
    cbn [next_block advanced _semi_block_index _semi_block_samples] in E.
    rewrite Z.add_0_l in E. rewrite E.
    destruct (Z.leb_spec (_semi_block_index self + n) (_semi_block_samples self));
      [lia|].
    replace (_semi_block_index self + n - 1)
      with (n - (_semi_block_samples self - _semi_block_index self) - 1
            + 1 * _semi_block_samples self) by lia.
    rewrite Hwrap by lia. split; [reflexivity|].
    intros _. apply Hpos; lia.
Qed.

Lemma in_step_advanced k self : in_step self -> in_step (advanced k self).
Proof. intros [H1 H2]. unfold in_step. simpl. lia. Qed.

Lemma in_step_next_block self :
  (inv_time_factor self == 1)%Q -> in_step self -> in_step (next_block self).
Proof.
  intros Hr [H1 H2]. unfold in_step. simpl.
  rewrite py_round_unit_rate by auto. auto.
Qed.

(** X6.  Without stretch both read heads follow the output: when the
    rate equals 1 and [input_block_index = sum_buffer_index =
    output_index] before a returning request of [n >= 0] samples, the
    same holds after it, so exactly [n] input positions were consumed. *)
Theorem pull_in_step fuel : forall samples self self' out,
  shaped self -> in_semi_block self -> 0 <= samples ->
  (inv_time_factor self == 1)%Q -> in_step self ->
  pull fuel samples self = Ok self' out ->
  in_step self'.
Proof.
  pose proof in_step_advanced as Hadv.
  pose proof in_step_next_block as Hnext.
  induction fuel as [|fuel IH]; intros n self self' out Hs Hi Hn Hr Hg H;
    [discriminate|].
  pose proof Hi as [Hi0 Hi1].
  destruct (pull_cases n self) as [Hc | [[Hc He] | [Hc He]]].
  - rewrite pull_fits, take_from_semi_block_spec in H by auto.
    inversion H; subst. now apply Hadv.
  - rewrite pull_exhausted in H by auto.
    apply IH in H; auto using shaped_next_block.
    apply in_semi_block_next_block. lia.
  - destruct fuel as [|fuel].
    { rewrite pull_spans in H by auto. discriminate. }
    rewrite pull_spans_head in H by auto.
    destruct (pull (S fuel) _ _) as [self2 new_block| |] eqn:E; try discriminate.
    inversion H; subst; clear H.
    apply IH in E; auto using shaped_next_block, shaped_advanced; [|lia].
    apply in_semi_block_next_block. simpl. lia.
Qed.

(** ** Depth of the recursion *)

Lemma recursion_depth_step sbs r :
  0 < sbs -> 1 <= r ->
  (r - 1 + 1 * sbs) / sbs + 1
  = (if r <=? sbs then 1 else (r - 1) / sbs + 1) + 1
  /\ 1 <= (if r <=? sbs then 1 else (r - 1) / sbs + 1).
Proof.
  intros Hsbs Hr. rewrite Z.div_add by lia.
  destruct (Z.leb_spec r sbs).
  - rewrite Z.div_small by lia. lia.
  - pose proof (Z.div_pos (r - 1) sbs ltac:(lia) ltac:(lia)). lia.
Qed.



(** ** The samples of an unstretched stream *)

Lemma item_semi_block self k c j d :
  shaped self -> 0 <= _semi_block_index self -> 0 <= k ->
  _semi_block_index self + k <= _semi_block_samples self ->
  0 <= c < channels self -> 0 <= j < k ->
  item (semi_block self (Z.to_nat k)) c j d
  = add (mul (buf_sample (input_buffer self) (Z.to_nat c)
                         (_input_block_index self + j))
             (item (window self) c (_semi_block_index self + j) d))
        (mul (buf_sample (input_buffer self) (Z.to_nat c)
                         (_sum_buffer_index self + j))
             (item (window self) c
                   (_semi_block_samples self + _semi_block_index self + j) d)).
Proof.
  intros Hs Hi Hk Hle Hc Hj. unfold item.
  pose proof (shaped_double _ Hs) as Hd.
  pose proof (shaped_cols _ Hs) as Hcols. rewrite Forall_forall in Hcols.
  assert (Hrow : length (nth (Z.to_nat c) (window self) [])
                 = Z.to_nat (block_size self)).
  { apply Hcols, nth_In. rewrite (shaped_rows _ Hs). lia. }
  rewrite nth_semi_block by (auto; lia).
  unfold semi_block_row.
  assert (Hcell : forall start ws, 0 <= ws -> ws + k <= block_size self ->
    (Z.to_nat j
     < length (map2 mul
                 (map (buf_sample (input_buffer self) (Z.to_nat c))
                      (zrange start (Z.to_nat k)))
                 (firstn (Z.to_nat k)
                    (skipn (Z.to_nat ws) (nth (Z.to_nat c) (window self) [])))))%nat
    /\ nth (Z.to_nat j)
        (map2 mul
           (map (buf_sample (input_buffer self) (Z.to_nat c))
                (zrange start (Z.to_nat k)))
           (firstn (Z.to_nat k)
              (skipn (Z.to_nat ws) (nth (Z.to_nat c) (window self) [])))) d
       = mul (buf_sample (input_buffer self) (Z.to_nat c) (start + j))
             (nth (Z.to_nat (ws + j)) (nth (Z.to_nat c) (window self) []) d)).
  { intros start ws H0 H1.
    assert (Hl : length (firstn (Z.to_nat k)
                   (skipn (Z.to_nat ws) (nth (Z.to_nat c) (window self) [])))
                 = Z.to_nat k) by (apply firstn_skipn_length; lia).
    split.
    - rewrite map2_length; rewrite length_map, zrange_length; [lia|auto].
    - rewrite (nth_map2 mul _ _ _ d d).
      + rewrite nth_zrange_map, nth_firstn_skipn by lia.
        f_equal; f_equal; lia.
      + rewrite length_map, zrange_length. lia.
      + rewrite Hl. lia. }
  destruct (Hcell (_input_block_index self) (_semi_block_index self))
    as [L1 E1]; try lia.
  destruct (Hcell (_sum_buffer_index self)
                  (_semi_block_samples self + _semi_block_index self))
    as [L2 E2]; try lia.
  rewrite (nth_map2 add _ _ _ d d) by auto.
  now rewrite E1, E2.
Qed.

Lemma item_concatenate (a b : ndarray) rows j k c i d :
  has_shape a rows j -> has_shape b rows k ->
  0 <= c < rows -> 0 <= i -> 0 <= j ->
  item (map2 (@app T) a b) c i d
  = if i <? j then item a c i d else item b c (i - j) d.
Proof.
  intros [Hla Hfa] [Hlb Hfb] Hc Hi Hj. unfold item.
  rewrite (nth_map2 (@app T) a b _ [] []) by lia.
  assert (Hrow : length (nth (Z.to_nat c) a []) = Z.to_nat j).
  { rewrite Forall_forall in Hfa. apply Hfa, nth_In. lia. }
  destruct (Z.ltb_spec i j).
  - apply app_nth1. lia.
  - rewrite app_nth2 by lia. f_equal. lia.
Qed.

(** X14.  The samples of an unstretched stream.  With the rate equal to
    1 and both read heads at the output position, a returning request of
    [n >= 0] samples delivers, at channel [c] and offset [i], the source
    sample at output position [output_index + i] weighted by the two
    window halves at its place in the semi-block,
    [p = (semi_block_index + i) mod semi_block_samples]:
    [source * window[p] + source * window[semi_block_samples + p]]. *)
Theorem pull_unit_rate_samples fuel : forall samples self self' out,
  shaped self -> in_semi_block self -> 0 <= samples ->
  (inv_time_factor self == 1)%Q -> in_step self ->
  pull fuel samples self = Ok self' out ->
  forall c i d, 0 <= c < channels self -> 0 <= i < samples ->
    item out c i d
    = add (mul (buf_sample (input_buffer self) (Z.to_nat c) (_output_index self + i))
               (item (window self) c
                     ((_semi_block_index self + i) mod _semi_block_samples self) d))
          (mul (buf_sample (input_buffer self) (Z.to_nat c) (_output_index self + i))
               (item (window self) c
                     (_semi_block_samples self
                      + (_semi_block_index self + i) mod _semi_block_samples self) d)).
Proof.
  induction fuel as [|fuel IH]; intros n self self' out Hs Hi Hn Hr Hg H
    c i d Hc Hidx; [discriminate|].
  pose proof Hi as [Hi0 Hi1]. pose proof Hg as [Hin Hsum].
  destruct (pull_cases n self) as [Hf | [[Hf He] | [Hf He]]].
  - rewrite pull_fits, take_from_semi_block_spec in H by auto.
    inversion H; subst; clear H.
    rewrite item_semi_block by auto.
    rewrite Hin, Hsum, Z.mod_small by lia.
    now rewrite Z.add_assoc.
  - rewrite pull_exhausted in H by auto.
    rewrite (IH n (next_block self) self' out); auto using shaped_next_block,
      in_step_next_block.
    2:{ apply in_semi_block_next_block. lia. }
    cbn [next_block _semi_block_index _semi_block_samples _output_index
         input_buffer window].
    replace (_semi_block_index self + i)
      with (0 + i + 1 * _semi_block_samples self) by lia.
    now rewrite Z_mod_plus_full.
  - destruct fuel as [|fuel].
    { rewrite pull_spans in H by auto. discriminate. }
    rewrite pull_spans_head in H by auto.
    destruct (pull (S fuel) _ _) as [self2 new_block| |] eqn:E; try discriminate.
    inversion H; subst; clear H.
    assert (Hs2 : shaped (next_block (advanced (_semi_block_samples self
                                               - _semi_block_index self) self)))
      by auto using shaped_next_block, shaped_advanced.
    assert (Hi2 : in_semi_block (next_block (advanced (_semi_block_samples self
                                               - _semi_block_index self) self))).
    { apply in_semi_block_next_block. simpl. lia. }
    assert (Hn2 : 0 <= n - (_semi_block_samples self - _semi_block_index self))
      by lia.
    pose proof (pull_pulled _ _ _ _ _ Hs2 Hi2 Hn2 E) as [_ _ Hsh2 _ _ _].
    cbn [next_block advanced channels] in Hsh2.
    rewrite (item_concatenate _ _ (channels self)
               (_semi_block_samples self - _semi_block_index self)
               (n - (_semi_block_samples self - _semi_block_index self)));
      auto; try lia.
    2:{ apply semi_block_shape; auto; lia. }
    destruct (Z.ltb_spec i (_semi_block_samples self - _semi_block_index self)).
    + rewrite item_semi_block by (auto; lia).
      rewrite Hin, Hsum, Z.mod_small by lia.
      now rewrite Z.add_assoc.
    + rewrite (IH _ _ _ _ Hs2 Hi2 Hn2 Hr
                (in_step_next_block
                   (advanced (_semi_block_samples self - _semi_block_index self) self)
                   Hr (in_step_advanced _ _ Hg)) E)
        by (cbn [next_block advanced channels]; lia).
      cbn [next_block advanced _semi_block_index _semi_block_samples
           _output_index input_buffer window].
      replace (_output_index self
               + (_semi_block_samples self - _semi_block_index self)
               + (i - (_semi_block_samples self - _semi_block_index self)))
        with (_output_index self + i) by lia.
      replace (0 + (i - (_semi_block_samples self - _semi_block_index self)))
        with (_semi_block_index self + i + (-1) * _semi_block_samples self) by lia.
      now rewrite Z_mod_plus_full.
Qed.

(** ** The helpers *)

(** X16.  Inside the window, [_get_window_slice length start] is the
    [channels x length] block of weights from column [start] on, and the
    object is not touched. *)
Theorem get_window_slice_inside self length start :
  shaped self -> 0 <= start -> 0 <= length ->
  start + length <= block_size self ->
  exists out,
    _get_window_slice length start self = Ok self out
    /\ has_shape out (channels self) length
    /\ forall c j d, 0 <= c < channels self -> 0 <= j < length ->
         item out c j d = item (window self) c (start + j) d.
Proof.
  intros Hs H0 Hl Hle.
  pose proof (shaped_cols _ Hs) as Hcols. rewrite Forall_forall in Hcols.
  eexists. split; [apply get_window_slice_spec; auto|].
  rewrite window_slice_inside by auto. split.
  - split; [rewrite length_map; apply (shaped_rows _ Hs)|].
    apply rows_of_length_map. intros row Hrow.
    apply firstn_skipn_length. rewrite (Hcols _ Hrow).
    pose proof (shaped_size _ Hs). lia.
  - intros c j d Hc Hj. unfold item.
    rewrite (nth_indep _ []
               ((fun row : list T =>
                   firstn (Z.to_nat length) (skipn (Z.to_nat start) row)) []))
      by (rewrite length_map, (shaped_rows _ Hs); lia).
    rewrite (map_nth (fun row : list T =>
                        firstn (Z.to_nat length) (skipn (Z.to_nat start) row))).
    rewrite nth_firstn_skipn by lia. f_equal. lia.
Qed.

(** X17.  Past the end of the window the slice is clipped, not refused:
    for a start inside the window and a stop beyond it,
    [_get_window_slice] returns without error only the
    [block_size - start] columns that exist. *)
Theorem get_window_slice_clipped self length start :
  shaped self -> 0 <= start <= block_size self ->
  block_size self <= start + length ->
  exists out,
    _get_window_slice length start self = Ok self out
    /\ has_shape out (channels self) (block_size self - start).
Proof.
  intros Hs H0 Hle.
  pose proof (shaped_cols _ Hs) as Hcols. rewrite Forall_forall in Hcols.
  eexists. split; [apply get_window_slice_spec; auto|].
  split; [rewrite length_map; apply (shaped_rows _ Hs)|].
  apply rows_of_length_map. intros row Hrow.
  unfold py_slice, slice_bound. rewrite (Hcols _ Hrow).
  destruct (Z.ltb_spec start 0); [lia|].
  destruct (Z.ltb_spec (start + length) 0); [lia|].
  rewrite length_firstn, length_skipn, (Hcols _ Hrow). lia.
Qed.

(** X11.  Cursor increments add up: two increments in a row are the
    increment by the sum, an increment by zero changes nothing, and an
    increment followed by its negative restores the object. *)
Theorem increment_indices_compose j k self :
  bind (_increment_indices j) (fun _ => _increment_indices k) self
  = _increment_indices (j + k) self
  /\ _increment_indices 0 self = Ok self tt
  /\ bind (_increment_indices k) (fun _ => _increment_indices (- k)) self
     = Ok self tt.
Proof.
  unfold bind. rewrite !increment_indices_spec.
  rewrite !advanced_advanced, advanced_0.
  replace (k + - k) with 0 by lia. rewrite advanced_0. auto.
Qed.

End Engine.

Arguments Ok {T A} self a.
Arguments Raise {T A} e self.
Arguments OutOfFuel {T A}.
Arguments block_size {T} o.
Arguments channels {T} o.
Arguments input_buffer {T} o.
Arguments window {T} o.
Arguments inv_time_factor {T} o.
Arguments _semi_block_samples {T} o.
Arguments _semi_block_index {T} o.
Arguments _input_block_index {T} o.
Arguments _sum_buffer_index {T} o.
Arguments _output_index {T} o.
Arguments advanced {T} k o.
Arguments shaped {T} o.
Arguments in_semi_block {T} o.
Arguments has_shape {T} a rows cols.
Arguments __init__ {T} hanning input_buffer block_size channels.
Arguments set_time_factor {T} time_factor _.
Arguments set_rate {T} rate _.
Arguments _take_from_semi_block {T} mul add samples _.
Arguments pull {T} mul add fuel samples _.
Arguments run {T} mul add fuel cs _.
Arguments returns {T} mul add samples self self' out.
Arguments np_concatenate1 {T} a b _.
Arguments set_inv_time_factor {T} v o.
Arguments same_config {T} o o'.
Arguments lands {T A} P r.
Arguments in_step {T} o.
Arguments final_semi_block_index {T} o n.
Arguments recursion_depth {T} o n.
Arguments item {T} a c j d.
Arguments _update_block_indices {T} _.
Arguments _get_window_slice {T} length window_start _.

(** * A concrete engine

    Rational samples, a one-channel source whose sample at position [i]
    is [i], and the Hann weights themselves for the block sizes where
    they are rational. *)

Module Ramp.

(** [np.hanning(M)] for [M <= 5], where the weights are rational.  A
    longer window has irrational weights; it is represented by zeros,
    and the statements below only use block sizes 0, 1 and 4. *)
Definition small_hanning (M : Z) : list Q :=
  match M with
  | 1%Z => [1]
  | 2%Z => [0; 0]
  | 3%Z => [0; 1; 0]
  | 4%Z => [0; 3 # 4; 3 # 4; 0]
  | 5%Z => [0; 1 # 2; 1; 1 # 2; 0]
  | _ => repeat 0 (Z.to_nat M)
  end%Q.

Definition ramp : SliceableArray Q :=
  {| buf_channels := 1; buf_sample := fun _ i => inject_Z i |}.

(** the object [OverlapAdd(ramp, block_size, 1)] *)
Definition engine (block_size : Z) : OverlapAdd Q :=
  {| block_size := block_size;
     channels := 1;
     input_buffer := ramp;
     window := [small_hanning block_size];
     inv_time_factor := 1;
     _semi_block_samples := block_size / 2;
     _semi_block_index := 0;
     _input_block_index := 0;
     _sum_buffer_index := 0;
     _output_index := 0 |}.

(** [engine 4] after [set_time_factor(2)] and [pull(3)] *)
Definition halved_after_3 : OverlapAdd Q :=
  {| block_size := 4;
     channels := 1;
     input_buffer := ramp;
     window := [small_hanning 4];
     inv_time_factor := 1 / 2;
     _semi_block_samples := 2;
     _semi_block_index := 1;
     _input_block_index := 2;
     _sum_buffer_index := 3;
     _output_index := 3 |}.

Lemma small_hanning_length M : length (small_hanning M) = Z.to_nat M.
Proof.
  unfold small_hanning.
  repeat match goal with
         | |- context [match ?p with _ => _ end] => destruct p
         end; try reflexivity; apply repeat_length.
Qed.

Lemma engine_constructed block_size :
  __init__ small_hanning ramp block_size 1 = Ok (engine block_size) tt.
Proof. reflexivity. Qed.

Lemma Qmult_comm_eq (a b : Q) : (a * b = b * a)%Q.
Proof.
  destruct a as [n d], b as [m e]. unfold Qmult. simpl.
  f_equal; [apply Z.mul_comm | apply Pos.mul_comm].
Qed.

(** the scenario of two pulls of two samples out of 4-sample blocks *)
Example pull_2_then_2 :
  exists self1 self2,
    pull Qmult Qplus 2 2 (engine 4)
    = Ok self1 [[0 * 0 + 0 * (3 # 4); 1 * (3 # 4) + 1 * 0]]%Q
    /\ pull Qmult Qplus 2 2 self1
       = Ok self2 [[2 * 0 + 2 * (3 # 4); 3 * (3 # 4) + 3 * 0]]%Q
    /\ _semi_block_index self2 = 2 /\ _input_block_index self2 = 4
    /\ _sum_buffer_index self2 = 4 /\ _output_index self2 = 4.
Proof. do 2 eexists. repeat split; reflexivity. Qed.

Example py_round_examples :
  py_round (1 # 2) = 0 /\ py_round (3 # 2) = 2 /\ py_round (5 # 2) = 2
  /\ py_round (-1 # 2) = 0 /\ py_round (-3 # 2) = -2 /\ py_round (7 # 4) = 2
  /\ py_round (5 # 4) = 1 /\ py_round 3 = 3 /\ py_round (-7 # 3) = -2.
Proof. repeat split; reflexivity. Qed.

(** ** The theorems at the concrete engine *)

Ltac engine_shaped :=
  constructor; cbn; try lia; try reflexivity; repeat constructor.


Lemma take_from_semi_block_postcondition_witness :
  exists self' out,
    _take_from_semi_block Qmult Qplus 2 (engine 4) = Ok self' out
    /\ has_shape out 1 2
    /\ _input_block_index self' = 2.
Proof.
  destruct (take_from_semi_block_postcondition Q Qmult Qplus Qmult_comm_eq
              (engine 4) 2) as (self' & out & H & Hsh & _ & Hin & _).
  - engine_shaped.
  - cbn. lia.
  - lia.
  - cbn. lia.
  - exists self', out. repeat split; [exact H | apply Hsh | apply Hsh | exact Hin].
Defined.

Lemma cursor_invariant_witness :
  0 <= _semi_block_index halved_after_3 <= _semi_block_samples halved_after_3
  /\ 0 <= _input_block_index halved_after_3
  /\ 0 <= _sum_buffer_index halved_after_3.
Proof.
  apply (cursor_invariant Q Qmult Qplus small_hanning small_hanning_length
           3 [SetTimeFactor 2; Pull 3] ramp 4 1 (engine 4) halved_after_3).
  - lia.
  - lia.
  - reflexivity.
  - repeat constructor. cbn. lia.
  - reflexivity.
  - reflexivity.
Defined.

Lemma pull_zero_noop_witness :
  pull Qmult Qplus 1 0 (engine 4) = Ok (engine 4) [[]].
Proof.
  destruct (pull_zero_noop Q Qmult Qplus (engine 4) 0) as [H _].
  - engine_shaped.
  - unfold in_semi_block. cbn. lia.
  - exact H.
Defined.


Lemma pull_negative_unchecked_witness :
  pull Qmult Qplus 1 (-1) (advanced 1 (engine 4)) = Ok (engine 4) [[]].
Proof.
  destruct (pull_negative_unchecked Q Qmult Qplus (advanced 1 (engine 4)) (-1) 0)
    as [H _].
  - engine_shaped.
  - unfold in_semi_block. cbn. lia.
  - lia.
  - cbn. lia.
  - exact H.
Defined.

(** ** Where the code departs from the stated claims *)

(** C4 as stated fails: after [set_time_factor(2)], a positive factor,
    and [pull(3)] on 4-sample blocks, the block boundary has put the
    input read head at [round(2 * 1/2) = 1] and the summing head at 2;
    one more sample later they stand at 2 and 3, so the next [pull]
    starts with [input_block_index < sum_buffer_index]. *)
Lemma cursor_ordering_counterexample :
  __init__ small_hanning ramp 4 1 = Ok (engine 4) tt
  /\ Forall admissible [SetTimeFactor 2; Pull 3]
  /\ run Qmult Qplus 3 [SetTimeFactor 2; Pull 3] (engine 4) = Ok halved_after_3 tt
  /\ _input_block_index halved_after_3 = 2
  /\ _sum_buffer_index halved_after_3 = 3
  /\ ~ (_input_block_index halved_after_3 >= _sum_buffer_index halved_after_3).
Proof.
  repeat split; try reflexivity.
  - repeat constructor. cbn. lia.
  - cbn. lia.
Qed.


(** C8 as stated fails: construction goes through for a zero or negative
    [block_size] and for a zero or negative [channels]; with
    [block_size = 0] and one channel the object even serves [pull(0)]. *)
Lemma init_nonpositive_counterexample :
  (exists self, __init__ small_hanning ramp 0 1 = Ok self tt
                /\ pull Qmult Qplus 1 0 self = Ok self [[]])
  /\ (exists self, __init__ small_hanning ramp (-2) 1 = Ok self tt)
  /\ (exists self, __init__ small_hanning ramp 4 0 = Ok self tt)
  /\ (exists self, __init__ small_hanning ramp 4 (-1) = Ok self tt).
Proof. repeat split; eexists; repeat split; reflexivity. Qed.

(** C9 as stated fails: one sample into a semi-block, [pull(-1)] raises
    nothing; it returns a [1 x 0] array and winds the four cursors back
    to where they were before the sample was pulled. *)
Lemma pull_negative_counterexample :
  exists self1 out1,
    pull Qmult Qplus 1 1 (engine 4) = Ok self1 out1
    /\ _output_index self1 = 1
    /\ pull Qmult Qplus 1 (-1) self1 = Ok (engine 4) [[]].
Proof. do 2 eexists. repeat split; reflexivity. Qed.

(** ** The further properties at the concrete engine *)

Ltac engine_in_range := unfold in_semi_block; cbn; lia.

Lemma pull_progress_witness :
  exists self' out,
    pull Qmult Qplus 3 3 (engine 4) = Ok self' out
    /\ (has_shape out (channels (engine 4)) 3
        /\ _output_index self' = _output_index (engine 4) + 3
        /\ shaped self'
        /\ in_semi_block self').
Proof.
  do 2 eexists. split; [reflexivity|].
  apply (pull_progress Q Qmult Qplus 3 3 (engine 4)).
  - engine_shaped.
  - engine_in_range.
  - lia.
  - reflexivity.
Defined.

Lemma pull_before_boundary_ignores_rate_witness :
  exists out,
    pull Qmult Qplus 1 1 (engine 4) = Ok (advanced 1 (engine 4)) out
    /\ pull Qmult Qplus 1 1 (set_inv_time_factor 3 (engine 4))
       = Ok (set_inv_time_factor 3 (advanced 1 (engine 4))) out.
Proof.
  apply (pull_before_boundary_ignores_rate Q Qmult Qplus 0 1 3 (engine 4)).
  - engine_shaped.
  - engine_in_range.
  - lia.
  - cbn. lia.
Defined.

Lemma pull_final_semi_block_index_witness :
  _semi_block_index halved_after_3
  = final_semi_block_index (set_inv_time_factor (1 / 2) (engine 4)) 3
  /\ (_semi_block_samples (set_inv_time_factor (1 / 2) (engine 4))
      < _semi_block_index (set_inv_time_factor (1 / 2) (engine 4)) + 3 ->
      0 < _semi_block_index halved_after_3).
Proof.
  eapply (pull_final_semi_block_index Q Qmult Qplus 3 3
            (set_inv_time_factor (1 / 2) (engine 4)) halved_after_3).
  - engine_shaped.
  - engine_in_range.
  - lia.
  - reflexivity.
Defined.

Lemma pull_in_step_witness :
  exists self' out,
    pull Qmult Qplus 3 3 (engine 4) = Ok self' out /\ in_step self'.
Proof.
  do 2 eexists. split; [reflexivity|].
  eapply (pull_in_step Q Qmult Qplus 3 3 (engine 4)).
  - engine_shaped.
  - engine_in_range.
  - lia.
  - reflexivity.
  - split; reflexivity.
  - reflexivity.
Defined.

Lemma pull_without_channels_witness :
  exists self,
    __init__ small_hanning ramp 4 0 = Ok self tt
    /\ pull Qmult Qplus 2 5 self = Raise IndexError self.
Proof.
  eexists. split; [reflexivity|].
  apply (pull_without_channels Q Qmult Qplus small_hanning ramp 4 0 _ 0 5).
  - lia.
  - lia.
  - reflexivity.
Defined.




Lemma pull_unit_rate_samples_witness :
  exists self' out,
    pull Qmult Qplus 3 3 (engine 4) = Ok self' out
    /\ item out 0 2 0%Q = (2 * 0 + 2 * (3 # 4))%Q.
Proof.
  do 2 eexists. split; [reflexivity|].
  eapply (pull_unit_rate_samples Q Qmult Qplus 3 3 (engine 4)).
  - engine_shaped.
  - engine_in_range.
  - lia.
  - reflexivity.
  - split; reflexivity.
  - reflexivity.
  - cbn. lia.
  - lia.
Defined.

Lemma get_window_slice_inside_witness :
  exists out,
    _get_window_slice 2 1 (engine 4) = Ok (engine 4) out
    /\ has_shape out (channels (engine 4)) 2
    /\ forall c j d, 0 <= c < channels (engine 4) -> 0 <= j < 2 ->
         item out c j d = item (window (engine 4)) c (1 + j) d.
Proof.
  apply (get_window_slice_inside Q (engine 4) 2 1).
  - engine_shaped.
  - lia.
  - lia.
  - cbn. lia.
Defined.

Lemma get_window_slice_clipped_witness :
  exists out,
    _get_window_slice 5 3 (engine 4) = Ok (engine 4) out
    /\ has_shape out (channels (engine 4)) (block_size (engine 4) - 3).
Proof.
  apply (get_window_slice_clipped Q (engine 4) 5 3).
  - engine_shaped.
  - cbn. lia.
  - cbn. lia.
Defined.

End Ramp.
